(** * IS2_GL_Rasterize: point samples to a smoothed raster

    A shallow embedding of [create_raster_from_points_with_smoothing] and
    [process_shapefiles] of [IS2_GL_Rasterize.ipynb], and the properties
    of the rasterizer, the gap-filling smoother and the batch loop.

    Numbers.  The code is modelled twice.  The first model takes Python
    floats as exact rationals extended with the IEEE special values the
    code relies on: [NaN] marks an empty cell during binning, and the
    quotient of the final division may be [NaN] or infinite.  It carries
    the properties that do not turn on rounding: which samples reach
    which cell and which are dropped, which exceptions are raised, where
    the division is evaluated, the batch loop.  The second model, module
    [IEEE], rounds every operation to nearest, ties to even: in binary64
    for Python floats and the weights, in binary32 where NumPy stores or
    computes in [float32].  It carries the properties that turn on the
    values computed: the shape, the value of a cell, the smoothed
    output.  Signed zeros are not modelled.  Coordinates are finite.

    Collaborators.  In the first model [scipy.ndimage.uniform_filter] is
    the mean over the window on the reflected array; in [IEEE] it is the
    loop of [uniform_filter1d], which keeps a running sum along each
    line.  Readers and writers of files are parameters of the batch
    layer. *)

From Stdlib Require Import ZArith QArith Qround Qpower Lia Lqa String.
From stdpp Require Import base list strings gmap.

Local Open Scope Z_scope.

(** ** Floats *)

Inductive float :=
| Fin (q : Q)
| Inf (negative : bool)
| NaN.

Definition isnan (a : float) : bool :=
  match a with NaN => true | _ => false end.

(** [a + b] *)
Definition fadd (a b : float) : float :=
  match a, b with
  | NaN, _ | _, NaN => NaN
  | Fin x, Fin y => Fin (x + y)
  | Inf s, Fin _ | Fin _, Inf s => Inf s
  | Inf s, Inf t => if Bool.eqb s t then Inf s else NaN
  end.

(** [a / n] for a positive integer constant [n] *)
Definition fdiv_const (a : float) (n : Z) : float :=
  match a with
  | Fin x => Fin (x / inject_Z n)
  | other => other
  end.

(** [a != b]: every comparison with NaN is unequal *)
Definition fne (a b : float) : bool :=
  match a, b with
  | Fin x, Fin y => negb (Qeq_bool x y)
  | Inf s, Inf t => negb (Bool.eqb s t)
  | _, _ => true
  end.

(** [a > 0] *)
Definition fpos (a : float) : bool :=
  match a with
  | Fin x => negb (Qle_bool x 0)
  | Inf s => negb s
  | NaN => false
  end.

(** Floating-point exceptions that numpy reports as a [RuntimeWarning]. *)
Inductive warning :=
| InvalidValue    (* "invalid value encountered in divide": 0/0, inf/inf *)
| DivideByZero.   (* "divide by zero encountered in divide": x/0, x <> 0 *)

(** One evaluation of [a / b] on numpy floats: the quotient and the
    exception it signals, if any. *)
Definition np_divide1 (a b : float) : float * option warning :=
  match a, b with
  | NaN, _ | _, NaN => (NaN, None)
  | Fin x, Fin y =>
      if Qeq_bool y 0 then
        if Qeq_bool x 0 then (NaN, Some InvalidValue)
        else (Inf (Qle_bool x 0), Some DivideByZero)
      else (Fin (x / y), None)
  | Inf s, Fin y => (Inf (xorb s (negb (Qle_bool 0 y))), None)
  | Fin _, Inf _ => (Fin 0, None)
  | Inf _, Inf _ => (NaN, Some InvalidValue)
  end.

(** Equality of floats up to the representation of a rational. *)
Definition float_eq (a b : float) : Prop :=
  match a, b with
  | Fin x, Fin y => (x == y)%Q
  | Inf s, Inf t => s = t
  | NaN, NaN => True
  | _, _ => False
  end.

(** ** Python numerics *)

(** [int(q)] on a float truncates toward zero. *)
Definition py_int (q : Q) : Z := Z.quot (Qnum q) (Z.pos (Qden q)).

(** Exceptions.  [except Exception] catches the first kind only;
    [KeyboardInterrupt] and [SystemExit] are of the second kind. *)
Inductive exn :=
| Exception (name : string)
| BaseException (name : string).

Inductive result (A : Type) :=
| Ok (a : A)
| Raise (e : exn).
Arguments Ok {A} a.
Arguments Raise {A} e.

Definition rbind {A B} (r : result A) (k : A -> result B) : result B :=
  match r with
  | Ok a => k a
  | Raise e => Raise e
  end.

Notation "'let?' x ':=' r 'in' k" := (rbind r (fun x => k))
  (at level 10, x name, r at level 100, k at level 200).

(** [a / b] on Python floats *)
Definition py_div (a b : Q) : result Q :=
  if Qeq_bool b 0 then Raise (Exception "ZeroDivisionError") else Ok (a / b)%Q.

(** ** Grids *)

Abbreviation grid A := (list (list A)).

Definition nrows {A} (g : grid A) : nat := length g.
Definition ncols {A} (g : grid A) : nat := length (List.hd [] g).

(** [g[row, col]] for indices within the shape *)
Definition cell {A} (g : grid A) (row col : nat) : option A :=
  g !! row ≫= (.!! col).

(** [g[row, col] = v] for indices within the shape *)
Definition set_cell {A} (g : grid A) (row col : nat) (v : A) : grid A :=
  alter (<[col := v]>) row g.

(** [np.full((height, width), v)] *)
Definition np_full {A} (height width : Z) (v : A) : result (grid A) :=
  if bool_decide (height < 0 ∨ width < 0)
  then Raise (Exception "ValueError")
  else Ok (replicate (Z.to_nat height) (replicate (Z.to_nat width) v)).

(** An array given by its shape and its entries. *)
Definition tabulate {A} (h w : nat) (f : nat -> nat -> A) : grid A :=
  (fun i => f i <$> seq 0 w) <$> seq 0 h.

Definition map2_grid {A B C} (f : A -> B -> C) (g1 : grid A) (g2 : grid B)
  : grid C :=
  zip_with (zip_with f) g1 g2.

(** [g] has [h] rows of [w] cells. *)
Definition has_shape {A} (h w : nat) (g : grid A) : Prop :=
  length g = h ∧ Forall (fun row => length row = w) g.

Definition const_grid {A} (h w : nat) (v : A) : grid A :=
  replicate h (replicate w v).

(** ** The rasterizer *)

Record BoundingBox := {
  left : Q;
  bottom : Q;
  right : Q;
  top : Q
}.

(** A point of the GeoDataFrame: its geometry and the value it holds in
    the selected column. *)
Record Sample := {
  geometry_x : Q;
  geometry_y : Q;
  value : float
}.

Definition nodata : Q := -9999.

(** The shape [(height, width)]. *)
Definition raster_shape (bounds : BoundingBox) (pixel_size : Q)
  : result (Z * Z) :=
  let? w := py_div (right bounds - left bounds) pixel_size in
  let? h := py_div (top bounds - bottom bounds) pixel_size in
  Ok (py_int h, py_int w).

(** The indices [(row, col)] computed for a point.  The divisions cannot
    fail here: [pixel_size = 0] has already raised in [raster_shape]. *)
Definition sample_col (bounds : BoundingBox) (pixel_size : Q) (x : Q) : Z :=
  py_int ((x - left bounds) / pixel_size).

Definition sample_row (bounds : BoundingBox) (pixel_size : Q) (y : Q) : Z :=
  py_int ((top bounds - y) / pixel_size).

(** [(raster[row, col] + value) / 2] *)
Definition pair_mean (cur v : float) : float := fdiv_const (fadd cur v) 2.

(** One iteration of the loop over [gdf.iterrows()]. *)
Definition bin_sample (bounds : BoundingBox) (pixel_size : Q)
    (width height : Z) (raster : grid float) (s : Sample) : grid float :=
  let col := sample_col bounds pixel_size (geometry_x s) in
  let row := sample_row bounds pixel_size (geometry_y s) in
  if bool_decide (0 ≤ col < width ∧ 0 ≤ row < height) then
    let r := Z.to_nat row in
    let c := Z.to_nat col in
    let cur := default NaN (cell raster r c) in
    if isnan cur then set_cell raster r c (value s)
    else set_cell raster r c (pair_mean cur (value s))
  else raster.

(** [np.where(np.isnan(raster), nodata, raster)] *)
Definition fill_nodata (raster : grid float) : grid float :=
  fmap (M := list) (fmap (M := list)
    (fun a => if isnan a then Fin nodata else a)) raster.

(** The raster when the loop ends. *)
Definition binned_raster (bounds : BoundingBox) (pixel_size : Q)
    (gdf : list Sample) : result (grid float) :=
  let? shape := raster_shape bounds pixel_size in
  let '(height, width) := shape in
  let? raster := np_full height width NaN in
  Ok (foldl (bin_sample bounds pixel_size width height) raster gdf).

(** The raster before smoothing. *)
Definition rasterize (bounds : BoundingBox) (pixel_size : Q)
    (gdf : list Sample) : result (grid float) :=
  let? raster := binned_raster bounds pixel_size gdf in
  Ok (fill_nodata raster).

(** What a cell holding [cur] becomes when a sample with value [v]
    arrives. *)
Definition absorb (cur v : float) : float :=
  if isnan cur then v else pair_mean cur v.

(** The samples of [gdf] that the loop sends to cell [(r, c)], in arrival
    order. *)
Definition hits (bounds : BoundingBox) (pixel_size : Q) (r c : Z)
    (gdf : list Sample) : list Sample :=
  filter (fun s => sample_row bounds pixel_size (geometry_y s) = r
                   ∧ sample_col bounds pixel_size (geometry_x s) = c) gdf.

(** The running pairwise average of [v] and the later values [vs]. *)
Definition pairwise_average (v : Q) (vs : list Q) : Q :=
  foldl (fun a x => (a + x) / 2)%Q v vs.

(** ** The gap-filling smoother *)

(** Index of the input element that position [i] of a line of length [n]
    extended in mode ["reflect"] ([d c b a | a b c d | d c b a]) holds. *)
Definition reflect (n i : Z) : Z :=
  let m := i mod (2 * n) in
  if m <? n then m else 2 * n - 1 - m.

(** The sum of the [size] values [f lo, f (lo + 1), ...], accumulated
    from the left. *)
Definition window_sum (f : Z -> float) (lo : Z) (size : nat) : float :=
  foldl fadd (Fin 0) ((fun k => f (lo + Z.of_nat k)) <$> seq 0 size).

(** [scipy.ndimage.uniform_filter1d] at position [i] of a line of length
    [n]: the mean of the window of [size] elements that starts [size // 2]
    before [i] (origin 0), on the reflected line. *)
Definition uniform_filter1d_at (size n : Z) (line : Z -> float) (i : Z)
  : float :=
  fdiv_const
    (window_sum (fun k => line (reflect n k)) (i - size / 2) (Z.to_nat size))
    size.

Definition cellZ (g : grid float) (row col : Z) : float :=
  default NaN (cell g (Z.to_nat row) (Z.to_nat col)).

Definition uniform_filter_axis0 (size : Z) (g : grid float) : grid float :=
  tabulate (nrows g) (ncols g) (fun i j =>
    uniform_filter1d_at size (Z.of_nat (nrows g))
      (fun k => cellZ g k (Z.of_nat j)) (Z.of_nat i)).

Definition uniform_filter_axis1 (size : Z) (g : grid float) : grid float :=
  tabulate (nrows g) (ncols g) (fun i j =>
    uniform_filter1d_at size (Z.of_nat (ncols g))
      (fun k => cellZ g (Z.of_nat i) k) (Z.of_nat j)).

(** [scipy.ndimage.uniform_filter(g, size=size)] with the default mode
    ["reflect"]: one pass of [uniform_filter1d] per axis, axis 0 first;
    an axis whose size is not above 1 is skipped, and the output is a
    copy of the input when every axis is skipped. *)
Definition uniform_filter (g : grid float) (size : Z) : grid float :=
  if size <=? 1 then g
  else uniform_filter_axis1 size (uniform_filter_axis0 size g).

(** [valid_mask = raster != nodata] *)
Definition valid_mask (raster : grid float) : grid bool :=
  fmap (M := list) (fmap (M := list) (fun a => fne a (Fin nodata))) raster.

(** [np.where(valid_mask, raster, 0)] *)
Definition zeroed (raster : grid float) : grid float :=
  map2_grid (fun (m : bool) a => if m then a else Fin 0)
    (valid_mask raster) raster.

(** [valid_mask.astype(float)] *)
Definition astype_float (mask : grid bool) : grid float :=
  fmap (M := list) (fmap (M := list)
    (fun m : bool => if m then Fin 1 else Fin 0)) mask.

Definition smoothed_raster (raster : grid float) (smoothing_window : Z)
  : grid float :=
  uniform_filter (zeroed raster) smoothing_window.

Definition weight_mask (raster : grid float) (smoothing_window : Z)
  : grid float :=
  uniform_filter (astype_float (valid_mask raster)) smoothing_window.

(** [smoothed_raster / weight_mask]: numpy divides the two arrays
    elementwise, at every cell. *)
Definition np_divide (a b : grid float) : grid (float * option warning) :=
  map2_grid np_divide1 a b.

Definition quotient (raster : grid float) (smoothing_window : Z)
  : grid (float * option warning) :=
  np_divide (smoothed_raster raster smoothing_window)
            (weight_mask raster smoothing_window).

(** The warnings the division raises, in row-major order of the cells. *)
Definition divide_warnings (raster : grid float) (smoothing_window : Z)
  : list warning :=
  omap snd (concat (quotient raster smoothing_window)).

(** [np.where(weight_mask > 0, smoothed_raster / weight_mask, nodata)]:
    both arguments of [np.where] are arrays computed before the call. *)
Definition raster_smoothed (raster : grid float) (smoothing_window : Z)
  : grid float :=
  let q := quotient raster smoothing_window in
  map2_grid (fun w (d : float * option warning) =>
               if fpos w then fst d else Fin nodata)
    (weight_mask raster smoothing_window) q.

(** The array that [create_raster_from_points_with_smoothing] writes. *)
Definition smoothed_output (bounds : BoundingBox) (pixel_size : Q)
    (gdf : list Sample) (smoothing_window : Z) : result (grid float) :=
  let? raster := rasterize bounds pixel_size gdf in
  Ok (raster_smoothed raster smoothing_window).

(** *** Windows and validity, for stating what the smoother computes *)

(** The nine cells of the window centred on [(r, c)], row by row. *)
Definition neighbourhood (raster : grid float) (r c : nat)
  : list (option float) :=
  [ cell raster (r - 1) (c - 1); cell raster (r - 1) c; cell raster (r - 1) (c + 1);
    cell raster r (c - 1);       cell raster r c;       cell raster r (c + 1);
    cell raster (r + 1) (c - 1); cell raster (r + 1) c; cell raster (r + 1) (c + 1) ].

Definition is_valid (q : Q) : bool := negb (Qeq_bool q nodata).

Definition zero_if_invalid (q : Q) : Q := if is_valid q then q else 0%Q.
Definition one_if_valid (q : Q) : Q := if is_valid q then 1%Q else 0%Q.

(** The mean that a window of [size] copies of [c] evaluates to. *)
Definition mean_const (c : Q) (size : Z) : Q :=
  (foldl Qplus 0 (replicate (Z.to_nat size) c) / inject_Z size)%Q.

(** The value [uniform_filter] computes on a grid that holds [c]
    everywhere. *)
Definition filtered_const (c : Q) (size : Z) : Q :=
  if size <=? 1 then c else mean_const (mean_const c size) size.

(** ** Files and the batch layer *)

(** A row of a GeoDataFrame: a point and its named attributes. *)
Record Row := {
  geometry : Q * Q;
  fields : gmap string float
}.

Definition GeoDataFrame := list Row.

(** [row.geometry.x, row.geometry.y] and [row[column]] *)
Definition row_sample (column : string) (row : Row) : result Sample :=
  match fields row !! column with
  | Some v => Ok {| geometry_x := fst (geometry row);
                    geometry_y := snd (geometry row);
                    value := v |}
  | None => Raise (Exception "KeyError")
  end.

Fixpoint rows_samples (column : string) (gdf : GeoDataFrame)
  : result (list Sample) :=
  match gdf with
  | [] => Ok []
  | row :: rest =>
      let? s := row_sample column row in
      let? ss := rows_samples column rest in
      Ok (s :: ss)
  end.

(** What the program leaves behind: the lines printed and the rasters
    written, oldest first. *)
Record world := {
  stdout : list string;
  written : list (string * grid float)
}.

Definition print (line : string) (w : world) : world :=
  {| stdout := stdout w ++ [line]; written := written w |}.

Definition write_raster (path : string) (g : grid float) (w : world) : world :=
  {| stdout := stdout w; written := written w ++ [(path, g)] |}.

(** The collaborators: the vector reader, the raster reader and writer,
    and the file system.  [glob_shp] is [Path(folder).glob("*.shp")], as
    the stems of the shapefiles. *)
Record Collaborators := {
  gpd_read_file : string -> result GeoDataFrame;
  rasterio_open_bounds : string -> result BoundingBox;
  rasterio_open_w : string -> result unit;
  os_makedirs : string -> result unit;
  glob_shp : string -> list string;
  os_path_join : string -> string -> string
}.

(** Everything [create_raster_from_points_with_smoothing] does before it
    writes: the reference raster is opened, the shape computed and the
    array allocated before the first row is read, so their exceptions come
    first; the output file is opened last. *)
Definition compute_smoothed (env : Collaborators)
    (gdf : GeoDataFrame) (reference_raster_path column : string)
    (pixel_size : Q) (output_raster_path : string) (smoothing_window : Z)
  : result (grid float) :=
  let? bounds := rasterio_open_bounds env reference_raster_path in
  let? shape := raster_shape bounds pixel_size in
  let? _ := np_full (fst shape) (snd shape) NaN in
  let? samples := rows_samples column gdf in
  let? out := smoothed_output bounds pixel_size samples smoothing_window in
  let? _ := rasterio_open_w env output_raster_path in
  Ok out.

Definition create_raster_from_points_with_smoothing (env : Collaborators)
    (gdf : GeoDataFrame) (reference_raster_path column : string)
    (pixel_size : Q) (output_raster_path : string) (smoothing_window : Z)
    (w : world) : result unit * world :=
  match compute_smoothed env gdf reference_raster_path column pixel_size
          output_raster_path smoothing_window with
  | Ok out => (Ok (), write_raster output_raster_path out w)
  | Raise e => (Raise e, w)
  end.

(** The arguments of [process_shapefiles] other than the input folder. *)
Record BatchArgs := {
  reference_raster_path : string;
  output_folder : string;
  column : string;
  pixel_size : Q;
  smoothing_window : Z
}.

(** The body of the [try] for one shapefile. *)
Definition try_body (env : Collaborators) (args : BatchArgs)
    (stem : string) (w : world) : result unit * world :=
  match gpd_read_file env (stem +:+ ".shp") with
  | Raise e => (Raise e, w)
  | Ok gdf =>
      let output_raster_path :=
        os_path_join env (output_folder args) (stem +:+ ".tif") in
      match create_raster_from_points_with_smoothing env gdf
              (reference_raster_path args) (column args) (pixel_size args)
              output_raster_path (smoothing_window args) w with
      | (Raise e, w') => (Raise e, w')
      | (Ok _, w') =>
          (Ok (), print ("Processed: " +:+ stem +:+ ".shp -> "
                           +:+ output_raster_path) w')
      end
  end.

(** [try: ... except Exception as e: print(...)] *)
Definition process_one (env : Collaborators) (args : BatchArgs)
    (stem : string) (w : world) : result unit * world :=
  match try_body env args stem w with
  | (Raise (Exception msg), w') =>
      (Ok (), print ("Error processing " +:+ stem +:+ ".shp: " +:+ msg) w')
  | other => other
  end.

(** The [for] loop: an exception that escapes an iteration ends it. *)
Fixpoint process_files (env : Collaborators) (args : BatchArgs)
    (stems : list string) (w : world) : result unit * world :=
  match stems with
  | [] => (Ok (), w)
  | stem :: rest =>
      match process_one env args stem w with
      | (Ok _, w') => process_files env args rest w'
      | (Raise e, w') => (Raise e, w')
      end
  end.

Definition process_shapefiles (env : Collaborators) (input_folder : string)
    (args : BatchArgs) (w : world) : result unit * world :=
  match os_makedirs env (output_folder args) with
  | Raise e => (Raise e, w)
  | Ok _ => process_files env args (glob_shp env input_folder) w
  end.

(** What processing one shapefile computes: the output path and the
    raster, or the exception raised on the way. *)
Definition file_result (env : Collaborators) (args : BatchArgs)
    (stem : string) : result (string * grid float) :=
  let? gdf := gpd_read_file env (stem +:+ ".shp") in
  let output_raster_path :=
    os_path_join env (output_folder args) (stem +:+ ".tif") in
  let? out := compute_smoothed env gdf (reference_raster_path args)
                (column args) (pixel_size args) output_raster_path
                (smoothing_window args) in
  Ok (output_raster_path, out).

(** The line printed for a shapefile. *)
Definition report (env : Collaborators) (args : BatchArgs) (stem : string)
  : list string :=
  match file_result env args stem with
  | Ok (output_raster_path, _) =>
      ["Processed: " +:+ stem +:+ ".shp -> " +:+ output_raster_path]
  | Raise (Exception msg) =>
      ["Error processing " +:+ stem +:+ ".shp: " +:+ msg]
  | Raise (BaseException _) => []
  end.

(** The raster written for a shapefile, if any. *)
Definition output_of (env : Collaborators) (args : BatchArgs) (stem : string)
  : option (string * grid float) :=
  match file_result env args stem with
  | Ok out => Some out
  | Raise _ => None
  end.

(** ** IEEE 754 arithmetic

    The definitions above compute with exact rationals.  The properties
    that turn on rounding are settled on the definitions below, which
    round as the code does: Python floats and the weights are binary64,
    the raster and its filtered copy are binary32 ([dtype=np.float32]).
    A finite float is the rational it denotes; signed zeros are not
    modelled. *)

(** [2 ^ e] *)
Definition pow2 (e : Z) : Q :=
  match e with
  | Z0 => 1
  | Zpos p => inject_Z (2 ^ Zpos p)
  | Zneg p => 1 # (2 ^ p)
  end.

(** [floor (log2 q)] for a positive [q] *)
Definition ilog2 (q : Q) : Z :=
  let k := Z.log2 (Qnum q) - Z.log2 (Z.pos (Qden q)) in
  if Qle_bool (pow2 k) q then k else k - 1.

(** The integer nearest to [s], the even one of the two at a tie. *)
Definition round_half_even (s : Q) : Z :=
  let m := Qfloor s in
  match (s - inject_Z m ?= 1 # 2)%Q with
  | Lt => m
  | Gt => m + 1
  | Eq => if Z.even m then m else m + 1
  end.

(** The multiple of the unit in the last place that is nearest to a
    positive rational, in the format with [prec] bits of precision and
    largest exponent [emax]; the unit does not fall below that of the
    subnormals. *)
Definition rounded (prec emax : Z) (q : Q) : Q :=
  let fe := Z.max (ilog2 q - prec + 1) (3 - emax - prec) in
  (inject_Z (round_half_even (q / pow2 fe)) * pow2 fe)%Q.

(** Round a positive rational to the nearest float, ties to even:
    infinity from [2 ^ emax] on. *)
Definition round_pos (prec emax : Z) (q : Q) : float :=
  let v := rounded prec emax q in
  if Qle_bool (pow2 emax) v then Inf false else Fin (Qred v).

Definition round (prec emax : Z) (q : Q) : float :=
  match Qnum q with
  | Z0 => Fin 0
  | Zpos _ => round_pos prec emax q
  | Zneg _ => match round_pos prec emax (- q) with
              | Fin v => Fin (Qred (- v))
              | Inf _ => Inf true
              | NaN => NaN
              end
  end.

Definition binary64 : Q -> float := round 53 1024.
Definition binary32 : Q -> float := round 24 128.

(** Conversion of a float to a format. *)
Definition cast (fmt : Q -> float) (a : float) : float :=
  match a with
  | Fin x => fmt x
  | other => other
  end.

(** [a + b], [a - b] and [a / b] rounded to a format; the division is
    the one of C and numpy, which signals and does not raise. *)
Definition add (fmt : Q -> float) (a b : float) : float :=
  match a, b with
  | NaN, _ | _, NaN => NaN
  | Fin x, Fin y => fmt (x + y)%Q
  | Inf s, Fin _ | Fin _, Inf s => Inf s
  | Inf s, Inf t => if Bool.eqb s t then Inf s else NaN
  end.

Definition opp (a : float) : float :=
  match a with
  | Fin x => Fin (Qred (- x))
  | Inf s => Inf (negb s)
  | NaN => NaN
  end.

Definition sub (fmt : Q -> float) (a b : float) : float := add fmt a (opp b).

Definition div (fmt : Q -> float) (a b : float) : float :=
  match a, b with
  | NaN, _ | _, NaN => NaN
  | Fin x, Fin y =>
      if Qeq_bool y 0 then
        if Qeq_bool x 0 then NaN else Inf (Qle_bool x 0)
      else fmt (x / y)%Q
  | Inf s, Fin y => Inf (xorb s (negb (Qle_bool 0 y)))
  | Fin _, Inf _ => Fin 0
  | Inf _, Inf _ => NaN
  end.

#[global] Instance exn_eq_dec : EqDecision exn.
Proof. solve_decision. Defined.

#[global] Instance result_eq_dec {A} `{EqDecision A} : EqDecision (result A).
Proof. solve_decision. Defined.

Module IEEE.

(** What [np.float32 + float] is computed in: binary64 under numpy's
    legacy promotion, binary32 when Python scalars are weak (numpy 2). *)
Inductive promotion := Legacy | Weak.

(** [int(a)] *)
Definition py_int (a : float) : result Z :=
  match a with
  | Fin q => Ok (Z.quot (Qnum q) (Z.pos (Qden q)))
  | Inf _ => Raise (Exception "OverflowError")
  | NaN => Raise (Exception "ValueError")
  end.

(** [a / b] on Python floats *)
Definition py_truediv (a : float) (b : Q) : result float :=
  if Qeq_bool b 0 then Raise (Exception "ZeroDivisionError")
  else Ok (div binary64 a (Fin b)).

(** [int((hi - lo) / pixel_size)] *)
Definition cells_between (lo hi pixel_size : Q) : result Z :=
  let? q := py_truediv (sub binary64 (Fin hi) (Fin lo)) pixel_size in
  py_int q.

(** The shape [(height, width)]; the width is computed first. *)
Definition raster_shape (bounds : BoundingBox) (pixel_size : Q)
  : result (Z * Z) :=
  let? width := cells_between (left bounds) (right bounds) pixel_size in
  let? height := cells_between (bottom bounds) (top bounds) pixel_size in
  Ok (height, width).

Definition sample_col (bounds : BoundingBox) (pixel_size : Q) (x : Q)
  : result Z :=
  cells_between (left bounds) x pixel_size.

Definition sample_row (bounds : BoundingBox) (pixel_size : Q) (y : Q)
  : result Z :=
  cells_between y (top bounds) pixel_size.

(** [(raster[row, col] + value) / 2], as the array stores it *)
Definition pair_mean (p : promotion) (cur v : float) : float :=
  match p with
  | Legacy => cast binary32 (div binary64 (add binary64 cur v) (Fin 2))
  | Weak => div binary32 (add binary32 cur (cast binary32 v)) (Fin 2)
  end.

(** What a cell holding [cur] becomes when a sample with value [v]
    arrives. *)
Definition absorb (p : promotion) (cur v : float) : float :=
  if isnan cur then cast binary32 v else pair_mean p cur v.

(** One iteration of the loop over [gdf.iterrows()]. *)
Definition bin_sample (p : promotion) (bounds : BoundingBox)
    (pixel_size : Q) (width height : Z) (raster : grid float) (s : Sample)
  : result (grid float) :=
  let? col := sample_col bounds pixel_size (geometry_x s) in
  let? row := sample_row bounds pixel_size (geometry_y s) in
  Ok (if bool_decide (0 ≤ col < width ∧ 0 ≤ row < height) then
        let r := Z.to_nat row in
        let c := Z.to_nat col in
        set_cell raster r c (absorb p (default NaN (cell raster r c)) (value s))
      else raster).

Fixpoint bin_samples (p : promotion) (bounds : BoundingBox)
    (pixel_size : Q) (width height : Z) (raster : grid float)
    (gdf : list Sample) : result (grid float) :=
  match gdf with
  | [] => Ok raster
  | s :: rest =>
      let? raster' := bin_sample p bounds pixel_size width height raster s in
      bin_samples p bounds pixel_size width height raster' rest
  end.

(** The raster before smoothing. *)
Definition rasterize (p : promotion) (bounds : BoundingBox)
    (pixel_size : Q) (gdf : list Sample) : result (grid float) :=
  let? shape := raster_shape bounds pixel_size in
  let '(height, width) := shape in
  let? raster := np_full height width NaN in
  let? raster := bin_samples p bounds pixel_size width height raster gdf in
  Ok (fill_nodata raster).

(** Element [k] of a line extended by [size // 2] reflected elements on
    the left (and as many as needed on the right). *)
Definition extended (size : Z) (line : list float) (k : Z) : float :=
  default NaN
    (line !! Z.to_nat (reflect (Z.of_nat (length line)) (k - size / 2))).

(** The loop of [uniform_filter1d] from its second output on: the sum of
    the window is updated by what enters and what leaves. *)
Fixpoint running (size : Z) (ext : Z -> float) (tmp : float) (l : Z)
    (steps : nat) : list float :=
  match steps with
  | O => []
  | S steps' =>
      let tmp' :=
        add binary64 tmp (sub binary64 (ext (l + size - 1)) (ext (l - 1))) in
      div binary64 tmp' (Fin (inject_Z size))
        :: running size ext tmp' (l + 1) steps'
  end.

(** [scipy.ndimage.uniform_filter1d] on one line, in binary64. *)
Definition uniform_filter1d (size : Z) (line : list float) : list float :=
  match line with
  | [] => []
  | _ :: _ =>
      let ext := extended size line in
      let tmp := foldl (add binary64) (Fin 0) (ext <$> seqZ 0 size) in
      div binary64 tmp (Fin (inject_Z size))
        :: running size ext tmp 1 (length line - 1)
  end.

(** One axis at a time, axis 0 first; each pass writes its lines to the
    output array, of format [fmt]. *)
Definition uniform_filter_axis0 (fmt : Q -> float) (size : Z)
    (g : grid float) : grid float :=
  let columns :=
    (fun j => cast fmt <$> uniform_filter1d size
                ((fun row : list float => default NaN (row !! j)) <$> g))
      <$> seq 0 (ncols g) in
  tabulate (nrows g) (ncols g)
    (fun i j => default NaN (columns !! j ≫= (.!! i))).

Definition uniform_filter_axis1 (fmt : Q -> float) (size : Z)
    (g : grid float) : grid float :=
  (fun row => cast fmt <$> uniform_filter1d size row) <$> g.

Definition uniform_filter (fmt : Q -> float) (g : grid float) (size : Z)
  : grid float :=
  if size <=? 1 then g
  else uniform_filter_axis1 fmt size (uniform_filter_axis0 fmt size g).

(** The filtered raster is binary32 like the raster, the filtered mask
    binary64. *)
Definition smoothed_raster (raster : grid float) (smoothing_window : Z)
  : grid float :=
  uniform_filter binary32 (zeroed raster) smoothing_window.

Definition weight_mask (raster : grid float) (smoothing_window : Z)
  : grid float :=
  uniform_filter binary64 (astype_float (valid_mask raster)) smoothing_window.

Definition raster_smoothed (raster : grid float) (smoothing_window : Z)
  : grid float :=
  map2_grid (fun w s => if fpos w then div binary64 s w else Fin nodata)
    (weight_mask raster smoothing_window)
    (smoothed_raster raster smoothing_window).

Definition smoothed_output (p : promotion) (bounds : BoundingBox)
    (pixel_size : Q) (gdf : list Sample) (smoothing_window : Z)
  : result (grid float) :=
  let? raster := rasterize p bounds pixel_size gdf in
  Ok (raster_smoothed raster smoothing_window).

(** Both index computations of a sample return. *)
Definition indexed (bounds : BoundingBox) (pixel_size : Q) (s : Sample)
  : Prop :=
  (exists c, sample_col bounds pixel_size (geometry_x s) = Ok c)
  ∧ (exists r, sample_row bounds pixel_size (geometry_y s) = Ok r).

(** The samples of [gdf] that the loop sends to cell [(r, c)], in arrival
    order. *)
Definition hits (bounds : BoundingBox) (pixel_size : Q) (r c : Z)
    (gdf : list Sample) : list Sample :=
  filter (fun s => sample_row bounds pixel_size (geometry_y s) = Ok r
                   ∧ sample_col bounds pixel_size (geometry_x s) = Ok c) gdf.

(** The shape is the pair of floors of the two real quotients. *)
Definition shape_is_floor (b : BoundingBox) (pixel_size : Q) : Prop :=
  raster_shape b pixel_size
  = Ok (Qfloor ((top b - bottom b) / pixel_size),
        Qfloor ((right b - left b) / pixel_size)).

(** Cell [(r, c)] holds the running pairwise average of the values that
    the loop sends to it, the first of them as it is. *)
Definition cell_is_pairwise_average (p : promotion) (b : BoundingBox)
    (pixel_size : Q) (gdf : list Sample) (r c : Z) : Prop :=
  forall v vs,
    value <$> hits b pixel_size r c gdf = Fin v :: (Fin <$> vs) ->
    exists g a, rasterize p b pixel_size gdf = Ok g
      ∧ cell g (Z.to_nat r) (Z.to_nat c) = Some a
      ∧ float_eq a (Fin (pairwise_average v vs)).

End IEEE.

(** A sample inside the extent [[left, right) x [bottom, top)]. *)
Definition in_extent (b : BoundingBox) (s : Sample) : Prop :=
  (left b <= geometry_x s ∧ geometry_x s < right b
   ∧ bottom b <= geometry_y s ∧ geometry_y s < top b)%Q.

(** A float that is finite and not negative, or plus infinity. *)
Definition nonneg_or_inf (a : float) : Prop :=
  match a with
  | Fin v => (0 <= v)%Q
  | Inf s => s = false
  | NaN => False
  end.

(** The order of the extended reals on the floats that are not NaN. *)
Definition fle (a b : float) : Prop :=
  match a with
  | NaN => False
  | Inf true => match b with NaN => False | _ => True end
  | Fin x =>
      match b with Fin y => (x <= y)%Q | Inf s => s = false | NaN => False end
  | Inf false => match b with Inf false => True | _ => False end
  end.

(** A float that is NaN or a rational within [lo, hi]. *)
Definition nan_or_within (lo hi : Q) (a : float) : Prop :=
  match a with
  | Fin v => (lo <= v <= hi)%Q
  | Inf _ => False
  | NaN => True
  end.

(** [q] is a binary32 number, and so a binary64 number. *)
Definition representable (q : Q) : Prop :=
  float_eq (binary32 q) (Fin q) ∧ float_eq (binary64 q) (Fin q).

(** The ends of a range and their doubles are binary32 numbers. *)
Definition range_representable (lo hi : Q) : Prop :=
  representable lo ∧ representable hi
  ∧ representable (lo + lo) ∧ representable (hi + hi).

(** ** Concrete inputs *)

(** The end-to-end scenario: a 100 x 100 extent, cells of size 10, two
    samples in cell (0, 0) and one in cell (9, 9). *)
Definition scenario_bounds : BoundingBox :=
  {| left := 0; bottom := 0; right := 100; top := 100 |}.

Definition scenario_gdf : list Sample :=
  [ {| geometry_x := 5; geometry_y := 95; value := Fin 10 |};
    {| geometry_x := 5; geometry_y := 95; value := Fin 20 |};
    {| geometry_x := 95; geometry_y := 5; value := Fin 100 |} ].

(** A point half a cell to the left of the extent. *)
Definition sample_left_of_extent : Sample :=
  {| geometry_x := -5; geometry_y := 95; value := Fin 10 |}.

(** An extent whose right edge is left of its left edge. *)
Definition inverted_bounds : BoundingBox :=
  {| left := 5; bottom := 0; right := 0; top := 10 |}.

Definition window_raster : grid float :=
  [ [Fin 1;      Fin nodata; Fin 3];
    [Fin nodata; Fin 5;      Fin nodata];
    [Fin nodata; Fin nodata; Fin 9] ].

Definition sentinel_raster : grid float :=
  [ [Fin 4; Fin (-19998 / 2); NaN] ].

(** A folder of three shapefiles of one point each; the second cannot be
    read. *)
Definition demo_env : Collaborators :=
  {| gpd_read_file := fun path =>
       if String.eqb path "b.shp" then Raise (Exception "DriverError")
       else Ok [ {| geometry := (5, 95)%Q;
                    fields := {[ "h_mean"%string := Fin 10 ]} |} ];
     rasterio_open_bounds := fun _ => Ok scenario_bounds;
     rasterio_open_w := fun _ => Ok ();
     os_makedirs := fun _ => Ok ();
     glob_shp := fun _ => ["a"; "b"; "c"]%string;
     os_path_join := fun dir name => dir +:+ "/" +:+ name |}.

Definition demo_args : BatchArgs :=
  {| reference_raster_path := "ref.tif";
     output_folder := "out";
     column := "h_mean";
     pixel_size := 50;
     smoothing_window := 3 |}.

Definition empty_world : world := {| stdout := []; written := [] |}.

(** The demo folder when reading the second shapefile is interrupted from
    the keyboard. *)
Definition interrupted_env : Collaborators :=
  {| gpd_read_file := fun path =>
       if String.eqb path "b.shp" then Raise (BaseException "KeyboardInterrupt")
       else gpd_read_file demo_env path;
     rasterio_open_bounds := rasterio_open_bounds demo_env;
     rasterio_open_w := rasterio_open_w demo_env;
     os_makedirs := os_makedirs demo_env;
     glob_shp := glob_shp demo_env;
     os_path_join := os_path_join demo_env |}.

(** The demo folder when the reference raster cannot be opened. *)
Definition no_reference_env : Collaborators :=
  {| gpd_read_file := gpd_read_file demo_env;
     rasterio_open_bounds := fun _ => Raise (Exception "RasterioIOError");
     rasterio_open_w := rasterio_open_w demo_env;
     os_makedirs := os_makedirs demo_env;
     glob_shp := glob_shp demo_env;
     os_path_join := os_path_join demo_env |}.

(** The demo arguments with a cell size of 0. *)
Definition zero_pixel_args : BatchArgs :=
  {| reference_raster_path := "ref.tif";
     output_folder := "out";
     column := "h_mean";
     pixel_size := 0;
     smoothing_window := 3 |}.

(** The message of the error line of a shapefile when the reference
    raster fails to open with [msg]: the reader's own message if reading
    the shapefile fails first. *)
Definition failure_message (env : Collaborators) (msg stem : string)
  : string :=
  match gpd_read_file env (stem +:+ ".shp") with
  | Raise (Exception m) => m
  | _ => msg
  end.

(** The double nearest to 0.1. *)
Definition tenth : Q := 3602879701896397 # 36028797018963968.

Definition unit_bounds : BoundingBox :=
  {| left := 0; bottom := 0; right := 1; top := 1 |}.

(** A point of the scenario's first cell whose value is 0.1. *)
Definition sample_tenth : Sample :=
  {| geometry_x := 5; geometry_y := 95; value := Fin tenth |}.

(** Three samples of one cell away from both axes, with the values 10,
    20 and 40. *)
Definition collision_gdf : list Sample :=
  [ {| geometry_x := 35; geometry_y := 45; value := Fin 10 |};
    {| geometry_x := 35; geometry_y := 45; value := Fin 20 |};
    {| geometry_x := 35; geometry_y := 45; value := Fin 40 |} ].

(** A 3 x 5 grid with two points, both in its bottom-left corner. *)
Definition corner_bounds : BoundingBox :=
  {| left := 0; bottom := 0; right := 50; top := 30 |}.

Definition corner_gdf : list Sample :=
  [ {| geometry_x := 5; geometry_y := 5; value := Fin 10 |};
    {| geometry_x := 15; geometry_y := 5; value := Fin 10 |} ].

(** A point on the right edge of the scenario extent. *)
Definition edge_sample : Sample :=
  {| geometry_x := 100; geometry_y := 50; value := Fin 7 |}.

(** ** Predicates on samples and cells *)

(** The bounds test of the binning loop. *)
Definition in_shape (bounds : BoundingBox) (pixel_size : Q)
    (width height : Z) (s : Sample) : Prop :=
  0 ≤ sample_col bounds pixel_size (geometry_x s) < width
  ∧ 0 ≤ sample_row bounds pixel_size (geometry_y s) < height.

#[local] Instance in_shape_dec b ps w h s : Decision (in_shape b ps w h s).
Proof. unfold in_shape. apply _. Defined.

(** A finite float that is not negative, and one that is positive. *)
Definition fnonneg (a : float) : Prop :=
  match a with Fin y => (0 <= y)%Q | _ => False end.

Definition fpositive (a : float) : Prop :=
  match a with Fin y => (0 < y)%Q | _ => False end.

(** Every cell of a grid of [h] rows and [w] columns is finite and not
    negative. *)
Definition grid_nonneg (h w : nat) (m : grid float) : Prop :=
  forall i j, (i < h)%nat -> (j < w)%nat -> fnonneg (default NaN (cell m i j)).

(** * Properties *)

(** ** Truncation and floor *)

Lemma Qeq_bool_false_pos (q : Q) : (0 < q)%Q -> Qeq_bool q 0 = false.
Proof.
  intros Hq. destruct (Qeq_bool q 0) eqn:E; [|done].
  apply Qeq_bool_iff in E. rewrite E in Hq. by apply Qlt_irrefl in Hq.
Qed.

Lemma py_int_floor_nonneg (q : Q) : (0 <= q)%Q -> py_int q = Qfloor q.
Proof.
  destruct q as [n d]. unfold Qle, py_int, Qfloor. simpl. intros Hq.
  apply Z.quot_div_nonneg; lia.
Qed.

Lemma Qdiv_nonneg (a b : Q) : (0 <= a)%Q -> (0 < b)%Q -> (0 <= a / b)%Q.
Proof.
  intros Ha Hb. apply Qle_shift_div_l; [done|]. by rewrite Qmult_0_l.
Qed.

Lemma py_div_pos (a b : Q) : (0 < b)%Q -> py_div a b = Ok (a / b)%Q.
Proof. intros Hb. unfold py_div. by rewrite Qeq_bool_false_pos. Qed.

(** ** Grids: shape, lookup and update *)

Lemma cell_Some_row {A} (g : grid A) r c v :
  cell g r c = Some v <-> exists row, g !! r = Some row ∧ row !! c = Some v.
Proof.
  unfold cell. destruct (g !! r) as [row|]; simpl.
  - split; [eauto|]. by intros (row' & [= <-] & ?).
  - split; [done|]. by intros (? & ? & ?).
Qed.

Lemma has_shape_row {A} h w (g : grid A) r row :
  has_shape h w g -> g !! r = Some row -> length row = w.
Proof.
  intros [_ Hw] Hr. rewrite Forall_lookup in Hw. by apply (Hw r).
Qed.

Lemma cell_is_Some {A} h w (g : grid A) r c :
  has_shape h w g -> (r < h)%nat -> (c < w)%nat -> is_Some (cell g r c).
Proof.
  intros Hs Hr Hc. destruct (lookup_lt_is_Some_2 g r) as [row Hrow].
  { destruct Hs as [-> _]. done. }
  destruct (lookup_lt_is_Some_2 row c) as [v Hv].
  { by rewrite (has_shape_row _ _ _ _ _ Hs Hrow). }
  exists v. apply cell_Some_row. eauto.
Qed.

Lemma has_shape_set_cell {A} h w (g : grid A) r c v :
  has_shape h w g -> has_shape h w (set_cell g r c v).
Proof.
  intros [Hh Hw]. split; unfold set_cell.
  - by rewrite length_alter.
  - rewrite Forall_lookup in Hw. apply Forall_lookup. intros i row.
    rewrite list_lookup_alter. case_decide as Hi.
    + subst i. destruct (g !! r) as [row0|] eqn:E; simpl; [|done].
      intros ?; simplify_eq. rewrite length_insert. by apply (Hw r).
    + apply Hw.
Qed.

Lemma cell_set_cell_eq {A} h w (g : grid A) r c v :
  has_shape h w g -> (r < h)%nat -> (c < w)%nat ->
  cell (set_cell g r c v) r c = Some v.
Proof.
  intros Hs Hr Hc. destruct (lookup_lt_is_Some_2 g r) as [row Hrow].
  { destruct Hs as [-> _]. done. }
  unfold cell, set_cell. rewrite list_lookup_alter_eq, Hrow. simpl.
  apply list_lookup_insert_eq.
  by rewrite (has_shape_row _ _ _ _ _ Hs Hrow).
Qed.

Lemma cell_set_cell_ne {A} (g : grid A) r c v r' c' :
  (r, c) ≠ (r', c') -> cell (set_cell g r c v) r' c' = cell g r' c'.
Proof.
  intros Hne. unfold cell, set_cell.
  destruct (decide (r = r')) as [<-|Hr].
  - rewrite list_lookup_alter_eq. destruct (g !! r) as [row|]; [|done].
    simpl. apply list_lookup_insert_ne. congruence.
  - by rewrite list_lookup_alter_ne.
Qed.

Lemma has_shape_replicate {A} h w (v : A) :
  has_shape h w (replicate h (replicate w v)).
Proof.
  split; [apply length_replicate|].
  apply Forall_replicate. apply length_replicate.
Qed.

Lemma cell_replicate {A} h w (v : A) r c :
  (r < h)%nat -> (c < w)%nat ->
  cell (replicate h (replicate w v)) r c = Some v.
Proof.
  intros Hr Hc. unfold cell. rewrite lookup_replicate_2 by done. simpl.
  by apply lookup_replicate_2.
Qed.

Lemma has_shape_tabulate {A} h w (f : nat -> nat -> A) :
  has_shape h w (tabulate h w f).
Proof.
  split; unfold tabulate.
  - by rewrite length_fmap, length_seq.
  - apply Forall_fmap, Forall_forall. intros i _. simpl.
    by rewrite length_fmap, length_seq.
Qed.

Lemma cell_tabulate {A} h w (f : nat -> nat -> A) i j :
  (i < h)%nat -> (j < w)%nat -> cell (tabulate h w f) i j = Some (f i j).
Proof.
  intros Hi Hj. unfold cell, tabulate.
  rewrite list_lookup_fmap, lookup_seq_lt by done. simpl.
  by rewrite list_lookup_fmap, lookup_seq_lt.
Qed.

Lemma cell_fmap {A B} (f : A -> B) (g : grid A) i j :
  cell (fmap (M := list) (fmap (M := list) f) g) i j = f <$> cell g i j.
Proof.
  unfold cell. rewrite list_lookup_fmap. destruct (g !! i) as [row|]; [|done].
  simpl. apply list_lookup_fmap.
Qed.

Lemma has_shape_fmap {A B} (f : A -> B) h w (g : grid A) :
  has_shape h w g -> has_shape h w (fmap (M := list) (fmap (M := list) f) g).
Proof.
  intros [Hh Hw]. split; [by rewrite length_fmap|].
  apply Forall_fmap. eapply Forall_impl; [exact Hw|].
  intros row Hrow. simpl. by rewrite length_fmap.
Qed.

Lemma cell_map2_grid {A B C} (f : A -> B -> C) (a : grid A) (b : grid B)
    i j x y :
  cell a i j = Some x -> cell b i j = Some y ->
  cell (map2_grid f a b) i j = Some (f x y).
Proof.
  intros (ra & Ha & Hx)%cell_Some_row (rb & Hb & Hy)%cell_Some_row.
  apply cell_Some_row. exists (zip_with f ra rb). split.
  - unfold map2_grid. rewrite lookup_zip_with, Ha. simpl. by rewrite Hb.
  - rewrite lookup_zip_with, Hx. simpl. by rewrite Hy.
Qed.

Lemma has_shape_map2_grid {A B C} (f : A -> B -> C) h w
    (a : grid A) (b : grid B) :
  has_shape h w a -> has_shape h w b -> has_shape h w (map2_grid f a b).
Proof.
  intros [Ha Hwa] [Hb Hwb]. split; unfold map2_grid.
  - rewrite length_zip_with. lia.
  - rewrite Forall_lookup in Hwa. rewrite Forall_lookup in Hwb.
    apply Forall_lookup. intros i row. rewrite lookup_zip_with.
    destruct (a !! i) as [ra|] eqn:Ea; [|done]. simpl.
    destruct (b !! i) as [rb|] eqn:Eb; [|done]. simpl.
    intros [= <-]. rewrite length_zip_with.
    rewrite (Hwa _ _ Ea), (Hwb _ _ Eb). lia.
Qed.

(** ** Binning *)

Section Binning.
Variables (bounds : BoundingBox) (ps : Q).
Variables (height width : Z).

Lemma has_shape_bin_sample raster s :
  has_shape (Z.to_nat height) (Z.to_nat width) raster ->
  has_shape (Z.to_nat height) (Z.to_nat width)
    (bin_sample bounds ps width height raster s).
Proof.
  intros Hs. unfold bin_sample. case_bool_decide; [|done].
  destruct (isnan _); by apply has_shape_set_cell.
Qed.

Lemma has_shape_bin_samples gdf raster :
  has_shape (Z.to_nat height) (Z.to_nat width) raster ->
  has_shape (Z.to_nat height) (Z.to_nat width)
    (foldl (bin_sample bounds ps width height) raster gdf).
Proof.
  revert raster. induction gdf as [|s gdf IH]; intros raster Hs; [done|].
  simpl. by apply IH, has_shape_bin_sample.
Qed.

Lemma cell_bin_sample raster s r c cur :
  has_shape (Z.to_nat height) (Z.to_nat width) raster ->
  0 ≤ r < height -> 0 ≤ c < width ->
  cell raster (Z.to_nat r) (Z.to_nat c) = Some cur ->
  cell (bin_sample bounds ps width height raster s)
       (Z.to_nat r) (Z.to_nat c)
  = Some (if bool_decide (sample_row bounds ps (geometry_y s) = r
                          ∧ sample_col bounds ps (geometry_x s) = c)
          then absorb cur (value s) else cur).
Proof.
  intros Hs Hr Hc Hcur. unfold bin_sample.
  case_bool_decide as Hin.
  - case_bool_decide as Hhit.
    + destruct Hhit as [-> ->]. rewrite Hcur. simpl. unfold absorb.
      destruct (isnan cur);
        apply (cell_set_cell_eq _ _ _ _ _ _ Hs); lia.
    + assert ((Z.to_nat (sample_row bounds ps (geometry_y s)),
               Z.to_nat (sample_col bounds ps (geometry_x s)))
              ≠ (Z.to_nat r, Z.to_nat c)) as Hne.
      { intros [= E1 E2]. apply Hhit. lia. }
      destruct (isnan _); by rewrite cell_set_cell_ne.
  - rewrite bool_decide_eq_false_2; [done|]. intros [<- <-]. lia.
Qed.

Lemma cell_bin_samples gdf raster r c cur :
  has_shape (Z.to_nat height) (Z.to_nat width) raster ->
  0 ≤ r < height -> 0 ≤ c < width ->
  cell raster (Z.to_nat r) (Z.to_nat c) = Some cur ->
  cell (foldl (bin_sample bounds ps width height) raster gdf)
       (Z.to_nat r) (Z.to_nat c)
  = Some (foldl absorb cur (value <$> hits bounds ps r c gdf)).
Proof.
  intros Hs Hr Hc. revert raster cur Hs.
  induction gdf as [|s gdf IH]; intros raster cur Hs Hcur; [done|].
  simpl. unfold hits. rewrite filter_cons. fold (hits bounds ps r c gdf).
  pose proof (cell_bin_sample raster s r c cur Hs Hr Hc Hcur) as Hstep.
  rewrite (IH _ _ (has_shape_bin_sample raster s Hs) Hstep).
  case_bool_decide; case_decide; done.
Qed.

Lemma binned_raster_cell gdf r c :
  raster_shape bounds ps = Ok (height, width) ->
  0 ≤ r < height -> 0 ≤ c < width ->
  exists raster,
    binned_raster bounds ps gdf = Ok raster
    ∧ has_shape (Z.to_nat height) (Z.to_nat width) raster
    ∧ cell raster (Z.to_nat r) (Z.to_nat c)
      = Some (foldl absorb NaN (value <$> hits bounds ps r c gdf)).
Proof.
  intros Hshape Hr Hc. unfold binned_raster. rewrite Hshape. simpl.
  unfold np_full. rewrite bool_decide_eq_false_2 by lia. simpl.
  eexists. split; [done|]. split.
  - apply has_shape_bin_samples, has_shape_replicate.
  - apply cell_bin_samples; [apply has_shape_replicate|done|done|].
    apply cell_replicate; lia.
Qed.
End Binning.

(** ** The rasterizer: index mapping and cells *)

Lemma sample_col_floor_inside b ps x :
  (0 < ps)%Q -> (left b <= x)%Q ->
  sample_col b ps x = Qfloor ((x - left b) / ps).
Proof.
  intros Hps Hx. apply py_int_floor_nonneg, Qdiv_nonneg; [lra|done].
Qed.

Lemma sample_row_floor_inside b ps y :
  (0 < ps)%Q -> (y <= top b)%Q ->
  sample_row b ps y = Qfloor ((top b - y) / ps).
Proof.
  intros Hps Hy. apply py_int_floor_nonneg, Qdiv_nonneg; [lra|done].
Qed.

(** C3, at the failing input.  For a point half a cell left of [left]
    (or half a cell above [top]) the code computes index 0, the
    truncation of the negative quotient, where the floor is -1. *)
Theorem sample_index_truncates_outside_extent :
  sample_col scenario_bounds 10 (-5) = 0
  ∧ Qfloor ((-5 - left scenario_bounds) / 10) = -1
  ∧ sample_row scenario_bounds 10 105 = 0
  ∧ Qfloor ((top scenario_bounds - 105) / 10) = -1.
Proof. repeat split; reflexivity. Qed.

(** C2, at the failing input.  A sample left of the extent, within one
    cell of it, is binned into column 0: with it cell (0, 0) holds its
    value, without it the cell holds the no-data value. *)
Theorem sample_left_of_extent_is_binned :
  (geometry_x sample_left_of_extent < left scenario_bounds)%Q
  ∧ (exists g, rasterize scenario_bounds 10 [sample_left_of_extent] = Ok g
               ∧ cell g 0 0 = Some (Fin 10))
  ∧ (exists g, rasterize scenario_bounds 10 [] = Ok g
               ∧ cell g 0 0 = Some (Fin nodata)).
Proof.
  split; [reflexivity|]. split; eexists; (split; [vm_compute; reflexivity|]);
    reflexivity.
Qed.

(** What the bounds test does guarantee: a sample whose computed index is
    outside the shape leaves the raster as it is. *)
Lemma bin_sample_outside b ps width height raster s :
  ¬ (0 ≤ sample_col b ps (geometry_x s) < width
     ∧ 0 ≤ sample_row b ps (geometry_y s) < height) ->
  bin_sample b ps width height raster s = raster.
Proof. intros Hout. unfold bin_sample. by rewrite bool_decide_eq_false_2. Qed.

Lemma py_int_mono_nonneg (a b : Q) :
  (0 <= a)%Q -> (a <= b)%Q -> py_int a ≤ py_int b.
Proof.
  intros Ha Hab. rewrite !py_int_floor_nonneg; [|by apply (Qle_trans _ a)|done].
  by apply Qfloor_resp_le.
Qed.

Lemma py_int_le_minus_one (q : Q) : (q <= -1)%Q -> py_int q ≤ -1.
Proof.
  destruct q as [n d]. unfold Qle, py_int. simpl. intros Hq.
  replace n with (- (- n)) by lia. rewrite Z.quot_opp_l by lia.
  rewrite Z.quot_div_nonneg by lia.
  assert (1 ≤ - n / Z.pos d); [|lia].
  apply Z.div_le_lower_bound; lia.
Qed.

(** The part of the bounds filtering that holds on a proper extent: a
    sample at or beyond the right or bottom edge, or a whole cell or more
    beyond the left or top edge, leaves the raster as it is. *)
Lemma bin_sample_far_outside b ps h w raster s :
  (0 < ps)%Q -> (left b <= right b)%Q -> (bottom b <= top b)%Q ->
  raster_shape b ps = Ok (h, w) ->
  (right b <= geometry_x s)%Q ∨ (geometry_x s <= left b - ps)%Q
  ∨ (geometry_y s <= bottom b)%Q ∨ (top b + ps <= geometry_y s)%Q ->
  bin_sample b ps w h raster s = raster.
Proof.
  intros Hps Hx Hy Hshape Hout. apply bin_sample_outside.
  unfold raster_shape in Hshape. rewrite !py_div_pos in Hshape by done.
  cbn [rbind] in Hshape. injection Hshape as <- <-.
  unfold sample_col, sample_row.
  assert (forall u v : Q, (u <= v)%Q -> (u / ps <= v / ps)%Q) as Hdiv.
  { intros u v Huv. apply Qmult_le_compat_r; [done|].
    apply Qlt_le_weak, Qinv_lt_0_compat, Hps. }
  assert (forall u : Q, (u <= - ps)%Q -> (u / ps <= -1)%Q) as Hneg.
  { intros u Hu. apply Qle_shift_div_r; [done|]. lra. }
  destruct Hout as [Hr|[Hl|[Hb|Ht]]].
  - pose proof (py_int_mono_nonneg ((right b - left b) / ps)
                  ((geometry_x s - left b) / ps)
                  ltac:(apply Qdiv_nonneg; [lra|done])
                  ltac:(apply Hdiv; lra)).
    lia.
  - pose proof (py_int_le_minus_one ((geometry_x s - left b) / ps)
                  ltac:(apply Hneg; lra)).
    lia.
  - pose proof (py_int_mono_nonneg ((top b - bottom b) / ps)
                  ((top b - geometry_y s) / ps)
                  ltac:(apply Qdiv_nonneg; [lra|done])
                  ltac:(apply Hdiv; lra)).
    lia.
  - pose proof (py_int_le_minus_one ((top b - geometry_y s) / ps)
                  ltac:(apply Hneg; lra)).
    lia.
Qed.

Lemma cell_rasterize b ps gdf h w r c :
  raster_shape b ps = Ok (h, w) -> 0 ≤ r < h -> 0 ≤ c < w ->
  exists g, rasterize b ps gdf = Ok g
    ∧ has_shape (Z.to_nat h) (Z.to_nat w) g
    ∧ cell g (Z.to_nat r) (Z.to_nat c)
      = Some (let a := foldl absorb NaN (value <$> hits b ps r c gdf) in
              if isnan a then Fin nodata else a).
Proof.
  intros Hshape Hr Hc.
  destruct (binned_raster_cell b ps h w gdf r c Hshape Hr Hc)
    as (raster & Hbin & Hs & Hcell).
  unfold rasterize. rewrite Hbin. simpl. eexists. split; [done|]. split.
  - by apply has_shape_fmap.
  - unfold fill_nodata. by rewrite cell_fmap, Hcell.
Qed.

(** ** The smoother: reflection, shapes and lookups *)

Lemma reflect_inside n i : 0 ≤ i < n -> reflect n i = i.
Proof.
  intros Hi. unfold reflect. rewrite Z.mod_small by lia.
  destruct (Z.ltb_spec i n); lia.
Qed.

Lemma reflect_range n i : 0 < n -> 0 ≤ reflect n i < n.
Proof.
  intros Hn. unfold reflect.
  pose proof (Z.mod_pos_bound i (2 * n) ltac:(lia)) as Hm.
  destruct (Z.ltb_spec (i mod (2 * n)) n); lia.
Qed.

Lemma has_shape_ncols {A} h w (g : grid A) :
  has_shape h w g -> (0 < h)%nat -> ncols g = w.
Proof.
  intros [Hh Hw] Hpos. unfold ncols. destruct g as [|row g]; simpl in *; [lia|].
  by inversion Hw.
Qed.

Lemma has_shape_nrows {A} h w (g : grid A) : has_shape h w g -> nrows g = h.
Proof. by intros [Hh _]. Qed.

Lemma grid_ext {A} h w (a b : grid A) :
  has_shape h w a -> has_shape h w b ->
  (forall i j, (i < h)%nat -> (j < w)%nat -> cell a i j = cell b i j) ->
  a = b.
Proof.
  intros Ha Hb Hcells. apply list_eq. intros i.
  destruct (decide (i < h)%nat) as [Hi|Hi].
  - destruct (lookup_lt_is_Some_2 a i) as [ra Hra]; [by destruct Ha as [-> _]|].
    destruct (lookup_lt_is_Some_2 b i) as [rb Hrb]; [by destruct Hb as [-> _]|].
    rewrite Hra, Hrb. f_equal. apply list_eq. intros j.
    destruct (decide (j < w)%nat) as [Hj|Hj].
    + specialize (Hcells i j Hi Hj). unfold cell in Hcells.
      by rewrite Hra, Hrb in Hcells.
    + rewrite !lookup_ge_None_2; [done| |].
      * rewrite (has_shape_row _ _ _ _ _ Hb Hrb). lia.
      * rewrite (has_shape_row _ _ _ _ _ Ha Hra). lia.
  - rewrite !lookup_ge_None_2; [done| |].
    + destruct Hb as [-> _]. lia.
    + destruct Ha as [-> _]. lia.
Qed.

Lemma has_shape_uniform_filter_axis0 h w size g :
  has_shape h w g -> has_shape h w (uniform_filter_axis0 size g).
Proof.
  intros Hs. unfold uniform_filter_axis0.
  rewrite (has_shape_nrows _ _ _ Hs). destruct h as [|h].
  - by split.
  - rewrite (has_shape_ncols _ _ _ Hs) by lia. apply has_shape_tabulate.
Qed.

Lemma has_shape_uniform_filter_axis1 h w size g :
  has_shape h w g -> has_shape h w (uniform_filter_axis1 size g).
Proof.
  intros Hs. unfold uniform_filter_axis1.
  rewrite (has_shape_nrows _ _ _ Hs). destruct h as [|h].
  - by split.
  - rewrite (has_shape_ncols _ _ _ Hs) by lia. apply has_shape_tabulate.
Qed.

Lemma has_shape_uniform_filter h w size g :
  has_shape h w g -> has_shape h w (uniform_filter g size).
Proof.
  intros Hs. unfold uniform_filter. destruct (size <=? 1); [done|].
  by apply has_shape_uniform_filter_axis1, has_shape_uniform_filter_axis0.
Qed.

Lemma cell_uniform_filter_axis0 h w size g i j :
  has_shape h w g -> (i < h)%nat -> (j < w)%nat ->
  cell (uniform_filter_axis0 size g) i j
  = Some (uniform_filter1d_at size (Z.of_nat h)
            (fun k => cellZ g k (Z.of_nat j)) (Z.of_nat i)).
Proof.
  intros Hs Hi Hj. unfold uniform_filter_axis0.
  rewrite (has_shape_nrows _ _ _ Hs), (has_shape_ncols _ _ _ Hs) by lia.
  by rewrite cell_tabulate.
Qed.

Lemma cell_uniform_filter_axis1 h w size g i j :
  has_shape h w g -> (i < h)%nat -> (j < w)%nat ->
  cell (uniform_filter_axis1 size g) i j
  = Some (uniform_filter1d_at size (Z.of_nat w)
            (fun k => cellZ g (Z.of_nat i) k) (Z.of_nat j)).
Proof.
  intros Hs Hi Hj. unfold uniform_filter_axis1.
  rewrite (has_shape_nrows _ _ _ Hs), (has_shape_ncols _ _ _ Hs) by lia.
  by rewrite cell_tabulate.
Qed.

Lemma has_shape_valid_mask h w raster :
  has_shape h w raster -> has_shape h w (valid_mask raster).
Proof. apply has_shape_fmap. Qed.

Lemma has_shape_astype_float h w mask :
  has_shape h w mask -> has_shape h w (astype_float mask).
Proof. apply has_shape_fmap. Qed.

Create HintDb shape.
#[local] Hint Resolve has_shape_map2_grid has_shape_valid_mask
  has_shape_astype_float has_shape_uniform_filter has_shape_replicate
  has_shape_tabulate has_shape_set_cell : shape.

Lemma has_shape_zeroed h w raster :
  has_shape h w raster -> has_shape h w (zeroed raster).
Proof. unfold zeroed. auto with shape. Qed.

Lemma has_shape_weight_mask h w raster size :
  has_shape h w raster -> has_shape h w (weight_mask raster size).
Proof. unfold weight_mask. auto with shape. Qed.

Lemma has_shape_smoothed_raster h w raster size :
  has_shape h w raster -> has_shape h w (smoothed_raster raster size).
Proof. unfold smoothed_raster. auto using has_shape_zeroed with shape. Qed.

Lemma has_shape_raster_smoothed h w raster size :
  has_shape h w raster -> has_shape h w (raster_smoothed raster size).
Proof.
  unfold raster_smoothed, quotient, np_divide.
  auto 6 using has_shape_weight_mask, has_shape_smoothed_raster with shape.
Qed.

(** The output cell in terms of the two filtered cells. *)
Lemma cell_raster_smoothed raster size i j s w :
  cell (smoothed_raster raster size) i j = Some s ->
  cell (weight_mask raster size) i j = Some w ->
  cell (raster_smoothed raster size) i j
  = Some (if fpos w then fst (np_divide1 s w) else Fin nodata)
  ∧ cell (quotient raster size) i j = Some (np_divide1 s w).
Proof.
  intros Hs Hw.
  assert (cell (quotient raster size) i j = Some (np_divide1 s w)) as Hq.
  { by apply cell_map2_grid. }
  split; [|done]. unfold raster_smoothed.
  by rewrite (cell_map2_grid _ _ _ _ _ _ _ Hw Hq).
Qed.

Lemma cell_zeroed raster i j a :
  cell raster i j = Some a ->
  cell (zeroed raster) i j = Some (if fne a (Fin nodata) then a else Fin 0).
Proof.
  intros Ha. unfold zeroed.
  apply (cell_map2_grid (fun (m : bool) x => if m then x else Fin 0)
           _ _ _ _ (fne a (Fin nodata)) a); [|done].
  unfold valid_mask. by rewrite cell_fmap, Ha.
Qed.

Lemma cell_astype_valid_mask raster i j a :
  cell raster i j = Some a ->
  cell (astype_float (valid_mask raster)) i j
  = Some (if fne a (Fin nodata) then Fin 1 else Fin 0).
Proof.
  intros Ha. unfold astype_float, valid_mask. by rewrite !cell_fmap, Ha.
Qed.

(** ** Smoothing a constant grid *)

Lemma foldl_Qplus_replicate a n c :
  (foldl Qplus a (replicate n c) == a + inject_Z (Z.of_nat n) * c)%Q.
Proof.
  revert a. induction n as [|n IH]; intros a.
  - simpl. change (inject_Z 0) with 0%Q. ring.
  - cbn [replicate foldl]. rewrite IH, Nat2Z.inj_succ. unfold Z.succ.
    rewrite inject_Z_plus. change (inject_Z 1) with 1%Q. ring.
Qed.

Lemma mean_const_eq c size : 0 < size -> (mean_const c size == c)%Q.
Proof.
  intros Hsize. unfold mean_const.
  rewrite foldl_Qplus_replicate, Z2Nat.id by lia.
  assert (~ inject_Z size == 0)%Q as Hne.
  { change 0%Q with (inject_Z 0). rewrite inject_Z_injective. lia. }
  field. exact Hne.
Qed.

Lemma filtered_const_eq c size : (filtered_const c size == c)%Q.
Proof.
  unfold filtered_const. destruct (Z.leb_spec size 1); [reflexivity|].
  rewrite mean_const_eq by lia. apply mean_const_eq. lia.
Qed.

Lemma foldl_fadd_const (f : Z -> float) c a (ks : list nat) lo :
  (forall k, f k = Fin c) ->
  foldl fadd (Fin a) ((fun k => f (lo + Z.of_nat k)) <$> ks)
  = Fin (foldl Qplus a (replicate (length ks) c)).
Proof.
  intros Hf. revert a. induction ks as [|k ks IH]; intros a; [done|].
  cbn [fmap list_fmap foldl length replicate]. rewrite Hf. simpl. apply IH.
Qed.

Lemma uniform_filter1d_at_const size n line i c :
  (forall k, line (reflect n k) = Fin c) ->
  uniform_filter1d_at size n line i = Fin (mean_const c size).
Proof.
  intros Hline. unfold uniform_filter1d_at, window_sum.
  rewrite (foldl_fadd_const (fun k => line (reflect n k)) c) by done.
  by rewrite length_seq.
Qed.

Lemma cellZ_const_grid h w (c : float) k j :
  0 ≤ k < Z.of_nat h -> 0 ≤ j < Z.of_nat w ->
  cellZ (const_grid h w c) k j = c.
Proof.
  intros Hk Hj. unfold cellZ, const_grid. by rewrite cell_replicate by lia.
Qed.

Lemma tabulate_const {A} h w (f : nat -> nat -> A) v :
  (forall i j, (i < h)%nat -> (j < w)%nat -> f i j = v) ->
  tabulate h w f = const_grid h w v.
Proof.
  intros Hf. apply (grid_ext h w).
  - apply has_shape_tabulate.
  - apply has_shape_replicate.
  - intros i j Hi Hj. unfold const_grid.
    by rewrite cell_tabulate, cell_replicate, Hf.
Qed.

Lemma uniform_filter_axis0_const h w size c :
  uniform_filter_axis0 size (const_grid h w (Fin c))
  = const_grid h w (Fin (mean_const c size)).
Proof.
  pose proof (has_shape_replicate h w (Fin c)) as Hs.
  fold (const_grid h w (Fin c)) in Hs.
  unfold uniform_filter_axis0. rewrite (has_shape_nrows _ _ _ Hs).
  destruct (decide (h = 0)%nat) as [->|Hh]; [done|].
  rewrite (has_shape_ncols _ _ _ Hs) by lia.
  apply tabulate_const. intros i j Hi Hj.
  apply uniform_filter1d_at_const. intros k.
  apply cellZ_const_grid; [|lia]. apply reflect_range. lia.
Qed.

Lemma uniform_filter_axis1_const h w size c :
  uniform_filter_axis1 size (const_grid h w (Fin c))
  = const_grid h w (Fin (mean_const c size)).
Proof.
  pose proof (has_shape_replicate h w (Fin c)) as Hs.
  fold (const_grid h w (Fin c)) in Hs.
  unfold uniform_filter_axis1. rewrite (has_shape_nrows _ _ _ Hs).
  destruct (decide (h = 0)%nat) as [->|Hh]; [done|].
  rewrite (has_shape_ncols _ _ _ Hs) by lia.
  apply tabulate_const. intros i j Hi Hj.
  apply uniform_filter1d_at_const. intros k.
  apply cellZ_const_grid; [lia|]. apply reflect_range. lia.
Qed.

Lemma uniform_filter_const h w size c :
  uniform_filter (const_grid h w (Fin c)) size
  = const_grid h w (Fin (filtered_const c size)).
Proof.
  unfold uniform_filter, filtered_const. destruct (size <=? 1); [done|].
  by rewrite uniform_filter_axis0_const, uniform_filter_axis1_const.
Qed.

Lemma fmap_const_grid {A B} (f : A -> B) h w v :
  fmap (M := list) (fmap (M := list) f) (const_grid h w v)
  = const_grid h w (f v).
Proof. unfold const_grid. by rewrite !fmap_replicate. Qed.

Lemma Qeq_bool_false (a b : Q) : ¬ (a == b)%Q -> Qeq_bool a b = false.
Proof.
  intros Hne. destruct (Qeq_bool a b) eqn:E; [|done].
  by apply Qeq_bool_iff in E.
Qed.

(** C8.  Smoothing a grid that holds one valid value [c] in every cell,
    with a window of any size, gives a grid of the same shape that holds
    [c] in every cell, the boundary rows and columns included (the filter
    reflects the grid at its edges). *)
Theorem smoothing_constant_grid h w c size i j :
  ¬ (c == nodata)%Q -> (i < h)%nat -> (j < w)%nat ->
  has_shape h w (raster_smoothed (const_grid h w (Fin c)) size)
  ∧ exists q, cell (raster_smoothed (const_grid h w (Fin c)) size) i j
              = Some (Fin q)
              ∧ (q == c)%Q.
Proof.
  intros Hvalid Hi Hj. split.
  { apply has_shape_raster_smoothed, has_shape_replicate. }
  assert (valid_mask (const_grid h w (Fin c)) = const_grid h w true) as Hmask.
  { unfold valid_mask. rewrite fmap_const_grid. simpl.
    by rewrite Qeq_bool_false. }
  assert (zeroed (const_grid h w (Fin c)) = const_grid h w (Fin c)) as Hzero.
  { apply (grid_ext h w);
      [apply has_shape_zeroed| |]; try apply has_shape_replicate.
    intros i' j' Hi' Hj'.
    rewrite (cell_zeroed _ _ _ (Fin c)) by (by apply cell_replicate).
    unfold const_grid. rewrite cell_replicate by done. simpl.
    by rewrite Qeq_bool_false. }
  destruct (cell_raster_smoothed (const_grid h w (Fin c)) size i j
              (Fin (filtered_const c size)) (Fin (filtered_const 1 size)))
    as [Hout _].
  { unfold smoothed_raster. rewrite Hzero, uniform_filter_const.
    by apply cell_replicate. }
  { unfold weight_mask, astype_float.
    rewrite Hmask, fmap_const_grid, uniform_filter_const.
    by apply cell_replicate. }
  pose proof (filtered_const_eq 1 size) as Hw1.
  pose proof (filtered_const_eq c size) as Hc.
  rewrite Hout. simpl.
  assert (Qle_bool (filtered_const 1 size) 0 = false) as ->.
  { destruct (Qle_bool _ _) eqn:E; [|done].
    apply Qle_bool_iff in E. rewrite Hw1 in E. by vm_compute in E. }
  assert (Qeq_bool (filtered_const 1 size) 0 = false) as ->.
  { apply Qeq_bool_false. rewrite Hw1. by vm_compute. }
  simpl. eexists. split; [done|]. rewrite Hw1, Hc. field.
Qed.

Lemma smoothing_constant_grid_witness :
  has_shape 2 3 (raster_smoothed (const_grid 2 3 (Fin 7)) 5)
  ∧ exists q, cell (raster_smoothed (const_grid 2 3 (Fin 7)) 5) 0 2
              = Some (Fin q)
              ∧ (q == 7)%Q.
Proof.
  apply (smoothing_constant_grid 2 3 7 5 0 2); [by vm_compute|lia|lia].
Defined.

(** ** Cells of the zeroed raster and of the mask *)

Lemma cellZ_of_nat g i j :
  cellZ g (Z.of_nat i) (Z.of_nat j) = default NaN (cell g i j).
Proof. unfold cellZ. by rewrite !Nat2Z.id. Qed.

Lemma zeroed_Fin q :
  (if fne (Fin q) (Fin nodata) then Fin q else Fin 0)
  = Fin (zero_if_invalid q).
Proof. unfold zero_if_invalid, is_valid. simpl. by destruct (negb _). Qed.

Lemma mask_Fin q :
  (if fne (Fin q) (Fin nodata) then Fin 1 else Fin 0)
  = Fin (one_if_valid q).
Proof. unfold one_if_valid, is_valid. simpl. by destruct (negb _). Qed.

(** ** Values equal to the no-data value *)

Lemma fne_nodata v : (v == nodata)%Q -> fne (Fin v) (Fin nodata) = false.
Proof.
  intros Hv. simpl. apply negb_false_iff. by apply Qeq_bool_iff.
Qed.

Lemma raster_smoothed_depends raster1 raster2 size :
  valid_mask raster1 = valid_mask raster2 ->
  zeroed raster1 = zeroed raster2 ->
  raster_smoothed raster1 size = raster_smoothed raster2 size.
Proof.
  intros Hm Hz.
  unfold raster_smoothed, quotient, smoothed_raster, weight_mask.
  by rewrite Hm, Hz.
Qed.

(** C10.  A cell of the binned raster that holds a value equal to -9999
    is invalid in the mask, and the smoothed raster is the one obtained
    had the cell stayed empty. *)
Theorem sentinel_valued_cell_is_invalid raster h w r c v size :
  has_shape h w raster -> (r < h)%nat -> (c < w)%nat ->
  cell raster r c = Some (Fin v) -> (v == nodata)%Q ->
  cell (valid_mask (fill_nodata raster)) r c = Some false
  ∧ raster_smoothed (fill_nodata raster) size
    = raster_smoothed (fill_nodata (set_cell raster r c NaN)) size.
Proof.
  intros Hs Hr Hc Hcell Hv.
  assert (cell (fill_nodata raster) r c = Some (Fin v)) as Hfill.
  { unfold fill_nodata. by rewrite cell_fmap, Hcell. }
  assert (cell (fill_nodata (set_cell raster r c NaN)) r c
          = Some (Fin nodata)) as Hfill'.
  { unfold fill_nodata.
    by rewrite cell_fmap, (cell_set_cell_eq h w). }
  assert (forall i j, (i, j) ≠ (r, c) ->
            cell (fill_nodata (set_cell raster r c NaN)) i j
            = cell (fill_nodata raster) i j) as Hother.
  { intros i j Hne. unfold fill_nodata.
    by rewrite !cell_fmap, cell_set_cell_ne. }
  pose proof (has_shape_fmap (fun a => if isnan a then Fin nodata else a)
                h w raster Hs) as Hs1.
  pose proof (has_shape_fmap (fun a => if isnan a then Fin nodata else a)
                h w _ (has_shape_set_cell h w raster r c NaN Hs)) as Hs2.
  fold (fill_nodata raster) in Hs1.
  fold (fill_nodata (set_cell raster r c NaN)) in Hs2.
  split.
  { unfold valid_mask. rewrite cell_fmap, Hfill.
    cbn [fmap option_fmap option_map]. by rewrite fne_nodata. }
  apply raster_smoothed_depends.
  - apply (grid_ext h w); [by apply has_shape_valid_mask..|].
    intros i j Hi Hj. unfold valid_mask. rewrite !cell_fmap.
    destruct (decide ((i, j) = (r, c))) as [[= -> ->]|Hne].
    + rewrite Hfill, Hfill'. simpl. f_equal. f_equal.
      by apply Qeq_bool_iff in Hv as ->.
    + by rewrite Hother.
  - apply (grid_ext h w); [by apply has_shape_zeroed..|].
    intros i j Hi Hj.
    destruct (decide ((i, j) = (r, c))) as [[= -> ->]|Hne].
    + rewrite (cell_zeroed _ _ _ _ Hfill), (cell_zeroed _ _ _ _ Hfill').
      by rewrite fne_nodata, fne_nodata.
    + destruct (cell_is_Some h w _ i j Hs1 Hi Hj) as [a Ha].
      rewrite (cell_zeroed _ _ _ _ Ha).
      rewrite <- (Hother i j Hne) in Ha. by rewrite (cell_zeroed _ _ _ _ Ha).
Qed.

Lemma sentinel_valued_cell_is_invalid_witness :
  cell (valid_mask (fill_nodata sentinel_raster)) 0 1 = Some false
  ∧ raster_smoothed (fill_nodata sentinel_raster) 3
    = raster_smoothed (fill_nodata (set_cell sentinel_raster 0 1 NaN)) 3.
Proof.
  apply (sentinel_valued_cell_is_invalid sentinel_raster 1 3 0 1 (-19998 / 2) 3).
  - split; [reflexivity|]. repeat constructor.
  - lia.
  - lia.
  - reflexivity.
  - reflexivity.
Defined.

(** ** The division is evaluated before it is masked *)

(** The general fact behind the output of a zero-weight cell: it holds the
    no-data value. *)
Lemma zero_weight_gives_nodata raster size i j s w :
  cell (smoothed_raster raster size) i j = Some s ->
  cell (weight_mask raster size) i j = Some (Fin w) -> (w == 0)%Q ->
  cell (raster_smoothed raster size) i j = Some (Fin nodata).
Proof.
  intros Hs Hw Hw0.
  destruct (cell_raster_smoothed raster size i j s (Fin w) Hs Hw) as [-> _].
  cbn [fpos]. assert (Qle_bool w 0 = true) as ->; [|done].
  apply Qle_bool_iff. rewrite Hw0. apply Qle_refl.
Qed.

(** At a zero-weight cell the quotient is evaluated all the same, and
    signals: 0/0 is invalid, x/0 divides by zero. *)
Lemma zero_weight_division_signals raster size i j s w :
  cell (smoothed_raster raster size) i j = Some (Fin s) ->
  cell (weight_mask raster size) i j = Some (Fin w) -> (w == 0)%Q ->
  exists d wn, cell (quotient raster size) i j = Some (d, Some wn).
Proof.
  intros Hs Hw Hw0.
  destruct (cell_raster_smoothed raster size i j (Fin s) (Fin w) Hs Hw)
    as [_ ->].
  cbn [np_divide1]. apply Qeq_bool_iff in Hw0 as ->.
  destruct (Qeq_bool s 0); eauto.
Qed.

(** C1, at the failing input, the end-to-end scenario of the spec.  At
    cell (5, 5) the weight is 0 and the output is the no-data value, but
    the quotient array holds the evaluated 0/0 there, with its warning:
    the division runs over all cells before [np.where] selects, and 92
    of the 100 cells signal it. *)
Theorem division_evaluated_at_zero_weight :
  exists raster,
    rasterize scenario_bounds 10 scenario_gdf = Ok raster
    ∧ (exists wt, cell (weight_mask raster 3) 5 5 = Some (Fin wt) ∧ (wt == 0)%Q)
    ∧ cell (quotient raster 3) 5 5 = Some (NaN, Some InvalidValue)
    ∧ cell (raster_smoothed raster 3) 5 5 = Some (Fin nodata)
    ∧ divide_warnings raster 3 = replicate 92 InvalidValue.
Proof.
  eexists. split; [vm_compute; reflexivity|].
  split; [eexists; split; [vm_compute; reflexivity|reflexivity]|].
  repeat split; vm_compute; reflexivity.
Qed.

(** ** The batch layer *)

Section BatchProperties.
Variables (env : Collaborators) (args : BatchArgs).

Lemma try_body_file_result stem w :
  try_body env args stem w
  = match file_result env args stem with
    | Ok (output_raster_path, out) =>
        (Ok (), print ("Processed: " +:+ stem +:+ ".shp -> "
                         +:+ output_raster_path)
                  (write_raster output_raster_path out w))
    | Raise e => (Raise e, w)
    end.
Proof.
  unfold try_body, file_result, create_raster_from_points_with_smoothing.
  destruct (gpd_read_file _ _) as [gdf|e]; [|done]. cbn [rbind].
  by destruct (compute_smoothed _ _ _ _ _ _ _).
Qed.

Lemma process_files_isolated stems w :
  (forall stem, stem ∈ stems ->
     forall name, file_result env args stem ≠ Raise (BaseException name)) ->
  exists w',
    process_files env args stems w = (Ok (), w')
    ∧ stdout w' = stdout w ++ concat (report env args <$> stems)
    ∧ written w' = written w ++ omap (output_of env args) stems.
Proof.
  revert w. induction stems as [|stem stems IH]; intros w Hexn.
  { exists w. by rewrite !app_nil_r. }
  assert (forall name, file_result env args stem ≠ Raise (BaseException name))
    as Hstem by (apply Hexn; by left).
  assert (forall s, s ∈ stems ->
            forall name, file_result env args s ≠ Raise (BaseException name))
    as Hrest by (intros s Hs; apply Hexn; by right).
  cbn [process_files]. unfold process_one.
  rewrite try_body_file_result.
  cbn [fmap list_fmap concat omap list_omap]. unfold report, output_of.
  destruct (file_result env args stem) as [[path out]|[msg|name]] eqn:E.
  - destruct (IH (print ("Processed: " +:+ stem +:+ ".shp -> " +:+ path)
                    (write_raster path out w)) Hrest)
      as (w' & Hrun & Hout & Hwr).
    exists w'. split; [done|]. rewrite Hout, Hwr. simpl.
    by rewrite <- !app_assoc.
  - destruct (IH (print ("Error processing " +:+ stem +:+ ".shp: " +:+ msg) w)
                Hrest) as (w' & Hrun & Hout & Hwr).
    exists w'. split; [done|]. rewrite Hout, Hwr. simpl.
    by rewrite <- !app_assoc.
  - by destruct (Hstem name).
Qed.

(** C9.  When no collaborator raises outside the [Exception] hierarchy,
    the batch returns normally whatever files fail: every shapefile of
    the folder, in order, gets its line, "Processed" or "Error
    processing", and every one that can be processed has its raster
    written. *)
Theorem batch_isolates_failures input_folder w :
  os_makedirs env (output_folder args) = Ok () ->
  (forall stem, stem ∈ glob_shp env input_folder ->
     forall name, file_result env args stem ≠ Raise (BaseException name)) ->
  exists w',
    process_shapefiles env input_folder args w = (Ok (), w')
    ∧ stdout w'
      = stdout w ++ concat (report env args <$> glob_shp env input_folder)
    ∧ written w'
      = written w ++ omap (output_of env args) (glob_shp env input_folder).
Proof.
  intros Hmk Hexn. unfold process_shapefiles. rewrite Hmk.
  by apply process_files_isolated.
Qed.
End BatchProperties.

Lemma batch_isolates_failures_witness :
  exists w',
    process_shapefiles demo_env "in" demo_args empty_world = (Ok (), w')
    ∧ stdout w'
      = stdout empty_world
        ++ concat (report demo_env demo_args <$> glob_shp demo_env "in")
    ∧ written w'
      = written empty_world
        ++ omap (output_of demo_env demo_args) (glob_shp demo_env "in").
Proof.
  apply (batch_isolates_failures demo_env demo_args "in" empty_world);
    [reflexivity|].
  intros stem Hstem name. cbn [glob_shp demo_env] in Hstem.
  repeat (apply elem_of_cons in Hstem as [->|Hstem];
          [vm_compute; discriminate|]).
  by apply elem_of_nil in Hstem.
Defined.

(** The lines the demo batch prints: the file that cannot be read is
    reported and the one after it is processed. *)
Example demo_batch_stdout :
  stdout (snd (process_shapefiles demo_env "in" demo_args empty_world))
  = [ "Processed: a.shp -> out/a.tif";
      "Error processing b.shp: DriverError";
      "Processed: c.shp -> out/c.tif" ]%string.
Proof. vm_compute. reflexivity. Qed.

(** * Further properties of the rasterizer *)

(** ** The grid and the extent *)

Lemma grid_shape_proper b ps :
  (0 < ps)%Q -> (left b <= right b)%Q -> (bottom b <= top b)%Q ->
  exists h w, raster_shape b ps = Ok (h, w) ∧ 0 ≤ h ∧ 0 ≤ w.
Proof.
  intros Hps Hx Hy.
  assert (0 <= (right b - left b) / ps)%Q as Hw0
    by (apply Qdiv_nonneg; [lra|done]).
  assert (0 <= (top b - bottom b) / ps)%Q as Hh0
    by (apply Qdiv_nonneg; [lra|done]).
  exists (Qfloor ((top b - bottom b) / ps)), (Qfloor ((right b - left b) / ps)).
  split.
  { unfold raster_shape. rewrite !py_div_pos by done. cbn [rbind].
    by rewrite !py_int_floor_nonneg. }
  split.
  - apply Qfloor_resp_le in Hh0. by change (Qfloor 0) with 0 in Hh0.
  - apply Qfloor_resp_le in Hw0. by change (Qfloor 0) with 0 in Hw0.
Qed.

(** ** Errors of the shape computation *)



(** ** What the raster depends on *)

Lemma foldl_bin_sample_filter b ps w h gdf raster :
  foldl (bin_sample b ps w h) raster (filter (in_shape b ps w h) gdf)
  = foldl (bin_sample b ps w h) raster gdf.
Proof.
  revert raster. induction gdf as [|s gdf IH]; intros raster; [done|].
  rewrite filter_cons. case_decide as Hin.
  - cbn [foldl]. apply IH.
  - cbn [foldl]. rewrite (bin_sample_outside b ps w h raster s) by done.
    apply IH.
Qed.



Lemma rasterize_shape b ps gdf h w :
  raster_shape b ps = Ok (h, w) -> 0 ≤ h -> 0 ≤ w ->
  exists g, rasterize b ps gdf = Ok g
    ∧ has_shape (Z.to_nat h) (Z.to_nat w) g.
Proof.
  intros Hshape Hh Hw. unfold rasterize, binned_raster. rewrite Hshape.
  cbn [rbind]. unfold np_full. rewrite bool_decide_eq_false_2 by lia.
  cbn [rbind]. eexists. split; [done|].
  apply has_shape_fmap, has_shape_bin_samples, has_shape_replicate.
Qed.



(** ** Missing values *)

Lemma absorb_NaN cur : absorb cur NaN = NaN.
Proof. by destruct cur. Qed.



(** * Further properties of the smoother *)

(** ** The whole computation *)

Lemma map2_grid_const {A B C} (f : A -> B -> C) h w a b :
  map2_grid f (const_grid h w a) (const_grid h w b) = const_grid h w (f a b).
Proof. unfold map2_grid, const_grid. by rewrite !zip_with_replicate. Qed.

Lemma raster_smoothed_all_nodata h w size :
  raster_smoothed (const_grid h w (Fin nodata)) size
  = const_grid h w (Fin nodata).
Proof.
  assert (valid_mask (const_grid h w (Fin nodata)) = const_grid h w false)
    as Hmask by (unfold valid_mask; by rewrite fmap_const_grid).
  assert (zeroed (const_grid h w (Fin nodata)) = const_grid h w (Fin 0))
    as Hzero by (unfold zeroed; by rewrite Hmask, map2_grid_const).
  unfold raster_smoothed, quotient, np_divide, smoothed_raster, weight_mask,
    astype_float.
  rewrite Hmask, Hzero, fmap_const_grid, uniform_filter_const.
  rewrite !map2_grid_const. cbn [fpos].
  assert (Qle_bool (filtered_const 0 size) 0 = true) as ->; [|done].
  apply Qle_bool_iff. rewrite filtered_const_eq. apply Qle_refl.
Qed.



(** X11.  With a window of size 1 smoothing changes no finite cell: a valid
    cell keeps its value and a no-data cell stays no-data. *)
Theorem window_one_changes_nothing raster i j v :
  cell raster i j = Some (Fin v) ->
  exists q, cell (raster_smoothed raster 1) i j = Some (Fin q)
    ∧ (q == v)%Q.
Proof.
  intros Hv.
  assert (forall g, uniform_filter g 1 = g) as Hid by reflexivity.
  destruct (cell_raster_smoothed raster 1 i j
              (Fin (zero_if_invalid v)) (Fin (one_if_valid v))) as [-> _].
  { unfold smoothed_raster. rewrite Hid, (cell_zeroed _ _ _ _ Hv).
    by rewrite zeroed_Fin. }
  { unfold weight_mask. rewrite Hid, (cell_astype_valid_mask _ _ _ _ Hv).
    by rewrite mask_Fin. }
  unfold zero_if_invalid, one_if_valid, is_valid.
  destruct (Qeq_bool v nodata) eqn:E; cbn [negb fpos].
  - change (Qle_bool 0 0) with true. cbn [negb]. eexists. split; [done|].
    apply Qeq_bool_iff in E. by symmetry.
  - change (Qle_bool 1 0) with false. cbn [negb np_divide1].
    change (Qeq_bool 1 0) with false. cbn [fst]. eexists. split; [done|].
    field.
Qed.

Lemma window_one_changes_nothing_witness :
  exists q, cell (raster_smoothed window_raster 1) 2 2 = Some (Fin q)
    ∧ (q == 9)%Q.
Proof.
  apply (window_one_changes_nothing window_raster 2 2 9). reflexivity.
Defined.

(** ** Valid cells keep a positive weight *)

Lemma fadd_nonneg a b : fnonneg a -> fnonneg b -> fnonneg (fadd a b).
Proof. destruct a, b; simpl; try done. intros. lra. Qed.

Lemma fadd_positive_l a b : fpositive a -> fnonneg b -> fpositive (fadd a b).
Proof. destruct a, b; simpl; try done. intros. lra. Qed.

Lemma fadd_positive_r a b : fnonneg a -> fpositive b -> fpositive (fadd a b).
Proof. destruct a, b; simpl; try done. intros. lra. Qed.

Lemma fdiv_const_nonneg a n : 0 < n -> fnonneg a -> fnonneg (fdiv_const a n).
Proof.
  intros Hn. destruct a as [y| |]; simpl; try done. intros Hy.
  apply Qdiv_nonneg; [done|]. change 0%Q with (inject_Z 0).
  by rewrite <- Zlt_Qlt.
Qed.

Lemma fdiv_const_positive a n :
  0 < n -> fpositive a -> fpositive (fdiv_const a n).
Proof.
  intros Hn. destruct a as [y| |]; simpl; try done. intros Hy.
  apply Qlt_shift_div_l.
  - change 0%Q with (inject_Z 0). by rewrite <- Zlt_Qlt.
  - by rewrite Qmult_0_l.
Qed.

Lemma foldl_fadd_nonneg (f : nat -> float) ks acc :
  fnonneg acc -> (forall k, fnonneg (f k)) ->
  fnonneg (foldl fadd acc (f <$> ks)).
Proof.
  intros Hacc Hf. revert acc Hacc.
  induction ks as [|k ks IH]; intros acc Hacc; [done|].
  cbn [fmap list_fmap foldl]. by apply IH, fadd_nonneg.
Qed.

Lemma foldl_fadd_positive_acc (f : nat -> float) ks acc :
  fpositive acc -> (forall k, fnonneg (f k)) ->
  fpositive (foldl fadd acc (f <$> ks)).
Proof.
  intros Hacc Hf. revert acc Hacc.
  induction ks as [|k ks IH]; intros acc Hacc; [done|].
  cbn [fmap list_fmap foldl]. by apply IH, fadd_positive_l.
Qed.

Lemma foldl_fadd_positive (f : nat -> float) ks acc k0 :
  fnonneg acc -> (forall k, fnonneg (f k)) ->
  k0 ∈ ks -> fpositive (f k0) ->
  fpositive (foldl fadd acc (f <$> ks)).
Proof.
  intros Hacc Hf Hin Hk0. revert acc Hacc.
  induction Hin as [k0 ks|k0 k ks _ IH]; intros acc Hacc;
    cbn [fmap list_fmap foldl].
  - apply foldl_fadd_positive_acc; [|done]. by apply fadd_positive_r.
  - apply IH; [done|]. by apply fadd_nonneg.
Qed.

Lemma uniform_filter1d_at_nonneg size n line i :
  0 < size -> (forall k, fnonneg (line (reflect n k))) ->
  fnonneg (uniform_filter1d_at size n line i).
Proof.
  intros Hsize Hline. unfold uniform_filter1d_at, window_sum.
  apply fdiv_const_nonneg; [done|].
  apply (foldl_fadd_nonneg
           (fun k => line (reflect n (i - size / 2 + Z.of_nat k)))).
  - simpl. lra.
  - intros k. apply Hline.
Qed.

(** The window of a position holds the position itself. *)
Lemma uniform_filter1d_at_positive size n line i :
  0 < size -> 0 ≤ i < n ->
  (forall k, fnonneg (line (reflect n k))) -> fpositive (line i) ->
  fpositive (uniform_filter1d_at size n line i).
Proof.
  intros Hsize Hi Hline Hpos. unfold uniform_filter1d_at, window_sum.
  apply fdiv_const_positive; [done|].
  apply (foldl_fadd_positive
           (fun k => line (reflect n (i - size / 2 + Z.of_nat k)))
           _ _ (Z.to_nat (size / 2))).
  - simpl. lra.
  - intros k. apply Hline.
  - apply elem_of_seq.
    pose proof (Z.div_pos size 2 ltac:(lia) ltac:(lia)).
    pose proof (Z.div_lt size 2 ltac:(lia) ltac:(lia)). lia.
  - cbn beta. rewrite Z2Nat.id by (apply Z.div_pos; lia).
    replace (i - size / 2 + size / 2) with i by lia.
    by rewrite reflect_inside.
Qed.

Section Positive.
Variables (h w : nat) (size : Z) (m : grid float) (i j : nat).
Hypothesis Hshape : has_shape h w m.
Hypothesis Hsize : 0 < size.
Hypothesis Hi : (i < h)%nat.
Hypothesis Hj : (j < w)%nat.
Hypothesis Hnonneg : grid_nonneg h w m.

Lemma cellZ_reflect_nonneg_rows k j' :
  (j' < w)%nat ->
  fnonneg (cellZ m (reflect (Z.of_nat h) k) (Z.of_nat j')).
Proof using All.
  intros Hj'. pose proof (reflect_range (Z.of_nat h) k ltac:(lia)).
  unfold cellZ. rewrite Nat2Z.id. apply Hnonneg; lia.
Qed.

Lemma cellZ_reflect_nonneg_cols i' k :
  (i' < h)%nat ->
  fnonneg (cellZ m (Z.of_nat i') (reflect (Z.of_nat w) k)).
Proof using All.
  intros Hi'. pose proof (reflect_range (Z.of_nat w) k ltac:(lia)).
  unfold cellZ. rewrite Nat2Z.id. apply Hnonneg; lia.
Qed.

Lemma uniform_filter_axis0_nonneg :
  grid_nonneg h w (uniform_filter_axis0 size m).
Proof using All.
  intros i' j' Hi' Hj'. rewrite (cell_uniform_filter_axis0 h w) by done.
  cbn [default]. apply uniform_filter1d_at_nonneg; [done|]. intros k.
  pose proof (reflect_range (Z.of_nat h) k ltac:(lia)).
  unfold cellZ. rewrite Nat2Z.id. apply Hnonneg; lia.
Qed.

Lemma uniform_filter_axis1_nonneg :
  grid_nonneg h w (uniform_filter_axis1 size m).
Proof using All.
  intros i' j' Hi' Hj'. rewrite (cell_uniform_filter_axis1 h w) by done.
  cbn [default]. apply uniform_filter1d_at_nonneg; [done|]. intros k.
  pose proof (reflect_range (Z.of_nat w) k ltac:(lia)).
  unfold cellZ. rewrite Nat2Z.id. apply Hnonneg; lia.
Qed.

Hypothesis Hpos : fpositive (default NaN (cell m i j)).

Lemma uniform_filter_axis0_positive :
  fpositive (default NaN (cell (uniform_filter_axis0 size m) i j)).
Proof using All.
  rewrite (cell_uniform_filter_axis0 h w) by done. cbn [default].
  apply uniform_filter1d_at_positive; [done|lia| |].
  - intros k. by apply cellZ_reflect_nonneg_rows.
  - by rewrite cellZ_of_nat.
Qed.

Lemma uniform_filter_axis1_positive :
  fpositive (default NaN (cell (uniform_filter_axis1 size m) i j)).
Proof using All.
  rewrite (cell_uniform_filter_axis1 h w) by done. cbn [default].
  apply uniform_filter1d_at_positive; [done|lia| |].
  - intros k. by apply cellZ_reflect_nonneg_cols.
  - by rewrite cellZ_of_nat.
Qed.
End Positive.

Lemma uniform_filter_positive h w size m i j :
  has_shape h w m -> (i < h)%nat -> (j < w)%nat ->
  grid_nonneg h w m -> fpositive (default NaN (cell m i j)) ->
  fpositive (default NaN (cell (uniform_filter m size) i j)).
Proof.
  intros Hs Hi Hj Hnn Hpos. unfold uniform_filter.
  destruct (Z.leb_spec size 1); [done|].
  apply (uniform_filter_axis1_positive h w);
    [by apply has_shape_uniform_filter_axis0|lia|done|done| |].
  - apply (uniform_filter_axis0_nonneg h w size m i j); (done || lia).
  - apply (uniform_filter_axis0_positive h w); (done || lia).
Qed.

Lemma mask_nonneg h w raster :
  has_shape h w raster ->
  grid_nonneg h w (astype_float (valid_mask raster)).
Proof.
  intros Hs i j Hi Hj. destruct (cell_is_Some h w raster i j Hs Hi Hj) as [a Ha].
  rewrite (cell_astype_valid_mask _ _ _ _ Ha). cbn [default].
  destruct (fne a (Fin nodata)); simpl; lra.
Qed.



(** * Further properties of the batch layer *)

Section BatchFurther.
Variables (env : Collaborators) (args : BatchArgs).

Lemma process_files_app stems1 stems2 w :
  process_files env args (stems1 ++ stems2) w
  = match process_files env args stems1 w with
    | (Ok _, w') => process_files env args stems2 w'
    | other => other
    end.
Proof.
  revert w. induction stems1 as [|stem stems1 IH]; intros w; [done|].
  cbn [app process_files].
  destruct (process_one env args stem w) as [[[]|e] w']; [apply IH|done].
Qed.

(** X13.  [except Exception] does not catch everything: an exception outside
    the [Exception] hierarchy, such as [KeyboardInterrupt], ends the
    batch at that file.  The files before it have their lines and their
    rasters, that file and the files after it have neither. *)
Theorem batch_stops_on_base_exception input_folder before stem after name w :
  os_makedirs env (output_folder args) = Ok () ->
  glob_shp env input_folder = before ++ stem :: after ->
  (forall s, s ∈ before ->
     forall n, file_result env args s ≠ Raise (BaseException n)) ->
  file_result env args stem = Raise (BaseException name) ->
  exists w',
    process_shapefiles env input_folder args w
    = (Raise (BaseException name), w')
    ∧ stdout w' = stdout w ++ concat (report env args <$> before)
    ∧ written w' = written w ++ omap (output_of env args) before.
Proof.
  intros Hmk Hglob Hbefore Hstem. unfold process_shapefiles.
  rewrite Hmk, Hglob, process_files_app.
  destruct (process_files_isolated env args before w Hbefore)
    as (w' & -> & Hout & Hwr).
  exists w'. split; [|done]. cbn [process_files]. unfold process_one.
  by rewrite try_body_file_result, Hstem.
Qed.

Lemma concat_singletons {A B} (f : A -> B) (g : A -> list B) l :
  (forall x, x ∈ l -> g x = [f x]) -> concat (g <$> l) = f <$> l.
Proof.
  induction l as [|x l IH]; intros Hg; [done|].
  cbn [fmap list_fmap concat]. rewrite (Hg x) by (by left).
  cbn [app]. f_equal. apply IH. intros y Hy. apply Hg. by right.
Qed.

Lemma omap_all_None {A B} (g : A -> option B) l :
  (forall x, x ∈ l -> g x = None) -> omap g l = [].
Proof.
  induction l as [|x l IH]; intros Hg; [done|].
  cbn [omap list_omap]. rewrite (Hg x) by (by left).
  apply IH. intros y Hy. apply Hg. by right.
Qed.

(** When every file fails inside the [Exception] hierarchy the batch
    returns normally, writes nothing and prints one line per file. *)
Lemma process_files_all_fail (msg_of : string -> string) stems w :
  (forall stem, stem ∈ stems ->
     file_result env args stem = Raise (Exception (msg_of stem))) ->
  exists w',
    process_files env args stems w = (Ok (), w')
    ∧ stdout w'
      = stdout w
        ++ ((fun stem => "Error processing " +:+ stem +:+ ".shp: "
                           +:+ msg_of stem) <$> stems)
    ∧ written w' = written w.
Proof.
  intros Hfail.
  destruct (process_files_isolated env args stems w) as (w' & Hrun & Hout & Hwr).
  { intros stem Hstem n. by rewrite (Hfail stem Hstem). }
  exists w'. split; [done|]. split.
  - rewrite Hout. f_equal. apply concat_singletons.
    intros stem Hstem. unfold report. by rewrite (Hfail stem Hstem).
  - rewrite Hwr, omap_all_None; [by rewrite app_nil_r|].
    intros stem Hstem. unfold output_of. by rewrite (Hfail stem Hstem).
Qed.

(** X14.  A reference raster that cannot be opened fails every file: the batch
    still returns normally, prints one error line per shapefile, in
    order, and writes no raster. *)
Theorem unreadable_reference_fails_every_file input_folder msg w :
  os_makedirs env (output_folder args) = Ok () ->
  rasterio_open_bounds env (reference_raster_path args)
  = Raise (Exception msg) ->
  (forall stem, stem ∈ glob_shp env input_folder ->
     forall n, gpd_read_file env (stem +:+ ".shp") ≠ Raise (BaseException n)) ->
  exists w',
    process_shapefiles env input_folder args w = (Ok (), w')
    ∧ stdout w'
      = stdout w
        ++ ((fun stem => "Error processing " +:+ stem +:+ ".shp: "
                           +:+ failure_message env msg stem)
              <$> glob_shp env input_folder)
    ∧ written w' = written w.
Proof.
  intros Hmk Href Hread. unfold process_shapefiles. rewrite Hmk.
  apply process_files_all_fail. intros stem Hstem.
  specialize (Hread stem Hstem). unfold file_result, failure_message.
  destruct (gpd_read_file env (stem +:+ ".shp")) as [gdf|[m|n]]; cbn [rbind].
  - unfold compute_smoothed. by rewrite Href.
  - done.
  - by destruct (Hread n).
Qed.

(** X15.  A cell size of 0 fails every file with the division of the shape
    computation, before any point is looked at: the batch returns
    normally, prints one line per shapefile and writes no raster. *)
Theorem zero_pixel_size_fails_every_file input_folder w :
  os_makedirs env (output_folder args) = Ok () ->
  (pixel_size args == 0)%Q ->
  (forall n, rasterio_open_bounds env (reference_raster_path args)
             ≠ Raise (BaseException n)) ->
  (forall stem, stem ∈ glob_shp env input_folder ->
     forall n, gpd_read_file env (stem +:+ ".shp") ≠ Raise (BaseException n)) ->
  exists w',
    process_shapefiles env input_folder args w = (Ok (), w')
    ∧ length (stdout w')
      = (length (stdout w) + length (glob_shp env input_folder))%nat
    ∧ written w' = written w.
Proof.
  intros Hmk Hzero Href Hread. unfold process_shapefiles. rewrite Hmk.
  assert (forall stem, stem ∈ glob_shp env input_folder ->
            exists m, file_result env args stem = Raise (Exception m))
    as Hfail.
  { intros stem Hstem. specialize (Hread stem Hstem). unfold file_result.
    destruct (gpd_read_file env (stem +:+ ".shp")) as [gdf|[m|n]];
      cbn [rbind]; [|eauto|by destruct (Hread n)].
    unfold compute_smoothed.
    destruct (rasterio_open_bounds env (reference_raster_path args))
      as [b|[m|n]]; cbn [rbind]; [|eauto|by destruct (Href n)].
    unfold raster_shape, py_div. apply Qeq_bool_iff in Hzero as ->.
    cbn [rbind]. eauto. }
  destruct (process_files_isolated env args (glob_shp env input_folder) w)
    as (w' & Hrun & Hout & Hwr).
  { intros stem Hstem n. destruct (Hfail stem Hstem) as [m ->]. done. }
  exists w'. split; [done|]. split.
  - rewrite Hout, length_app. f_equal.
    clear Hrun Hout Hwr Hread.
    induction (glob_shp env input_folder) as [|stem stems IH]; [done|].
    cbn [fmap list_fmap concat]. rewrite length_app, IH.
    + unfold report. destruct (Hfail stem) as [m ->]; [by left|]. done.
    + intros s Hs. apply Hfail. by right.
  - rewrite Hwr, omap_all_None; [by rewrite app_nil_r|].
    intros stem Hstem. unfold output_of.
    by destruct (Hfail stem Hstem) as [m ->].
Qed.
End BatchFurther.

Lemma batch_stops_on_base_exception_witness :
  exists w',
    process_shapefiles interrupted_env "in" demo_args empty_world
    = (Raise (BaseException "KeyboardInterrupt"), w')
    ∧ stdout w'
      = stdout empty_world
        ++ concat (report interrupted_env demo_args <$> ["a"%string])
    ∧ written w'
      = written empty_world
        ++ omap (output_of interrupted_env demo_args) ["a"%string].
Proof.
  apply (batch_stops_on_base_exception interrupted_env demo_args "in"
           ["a"%string] "b" ["c"%string] "KeyboardInterrupt" empty_world);
    [reflexivity|reflexivity| |reflexivity].
  intros s Hs n.
  apply elem_of_cons in Hs as [->|Hs]; [|by apply elem_of_nil in Hs].
  vm_compute. discriminate.
Defined.

Lemma unreadable_reference_fails_every_file_witness :
  exists w',
    process_shapefiles no_reference_env "in" demo_args empty_world
    = (Ok (), w')
    ∧ stdout w'
      = stdout empty_world
        ++ ((fun stem => "Error processing " +:+ stem +:+ ".shp: "
                           +:+ failure_message no_reference_env
                                 "RasterioIOError" stem)
              <$> glob_shp no_reference_env "in")
    ∧ written w' = written empty_world.
Proof.
  apply (unreadable_reference_fails_every_file no_reference_env demo_args
           "in" "RasterioIOError" empty_world); [reflexivity|reflexivity|].
  intros stem Hstem n. cbn [glob_shp no_reference_env demo_env] in Hstem.
  repeat (apply elem_of_cons in Hstem as [->|Hstem];
          [vm_compute; discriminate|]).
  by apply elem_of_nil in Hstem.
Defined.

Lemma zero_pixel_size_fails_every_file_witness :
  exists w',
    process_shapefiles demo_env "in" zero_pixel_args empty_world = (Ok (), w')
    ∧ length (stdout w')
      = (length (stdout empty_world) + length (glob_shp demo_env "in"))%nat
    ∧ written w' = written empty_world.
Proof.
  apply (zero_pixel_size_fails_every_file demo_env zero_pixel_args "in"
           empty_world); [reflexivity|reflexivity|discriminate|].
  intros stem Hstem n. cbn [glob_shp demo_env] in Hstem.
  repeat (apply elem_of_cons in Hstem as [->|Hstem];
          [vm_compute; discriminate|]).
  by apply elem_of_nil in Hstem.
Defined.

(** * A column that is missing *)

Lemma rows_samples_missing column gdf row :
  row ∈ gdf -> fields row !! column = None ->
  rows_samples column gdf = Raise (Exception "KeyError").
Proof.
  intros Hin Hnone. induction Hin as [row gdf|row row' gdf _ IH];
    cbn [rows_samples]; unfold row_sample.
  - by rewrite Hnone.
  - destruct (fields row' !! column); [|done]. cbn [rbind].
    by rewrite IH.
Qed.

Lemma rows_samples_present column gdf :
  Forall (fun row => is_Some (fields row !! column)) gdf ->
  exists samples, rows_samples column gdf = Ok samples
    ∧ length samples = length gdf.
Proof.
  induction 1 as [|row gdf [v Hv] _ (samples & IH & Hlen)].
  - by exists [].
  - cbn [rows_samples]. unfold row_sample. rewrite Hv. cbn [rbind].
    rewrite IH. cbn [rbind]. eexists. split; [done|]. simpl. by rewrite Hlen.
Qed.



(** * Properties in IEEE 754 arithmetic *)

(** ** Rounding keeps the sign *)

Lemma pow2_pos e : (0 < pow2 e)%Q.
Proof.
  destruct e as [|p|p]; simpl; [reflexivity| |reflexivity].
  change 0%Q with (inject_Z 0). rewrite <- Zlt_Qlt. lia.
Qed.

Lemma round_half_even_bounds s :
  Qfloor s ≤ round_half_even s ≤ Qfloor s + 1.
Proof.
  unfold round_half_even.
  destruct (_ ?= _)%Q; [destruct (Z.even _)| |]; lia.
Qed.

Lemma rounded_nonneg prec emax q : (0 < q)%Q -> (0 <= rounded prec emax q)%Q.
Proof.
  intros Hq. unfold rounded.
  set (fe := Z.max (ilog2 q - prec + 1) (3 - emax - prec)).
  set (s := (q / pow2 fe)%Q).
  assert (0 <= Qfloor s) as Hm.
  { change 0 with (Qfloor 0). apply Qfloor_resp_le, Qlt_le_weak.
    apply Qlt_shift_div_l; [apply pow2_pos|]. by rewrite Qmult_0_l. }
  pose proof (round_half_even_bounds s) as Hb.
  apply Qmult_le_0_compat.
  - change 0%Q with (inject_Z 0). rewrite <- Zle_Qle. lia.
  - apply Qlt_le_weak, pow2_pos.
Qed.

Lemma round_pos_nonneg prec emax q :
  (0 < q)%Q -> nonneg_or_inf (round_pos prec emax q).
Proof.
  intros Hq. unfold round_pos.
  destruct (Qle_bool _ _); [done|]. cbn [nonneg_or_inf].
  rewrite Qred_correct. by apply rounded_nonneg.
Qed.

Lemma round_nonneg prec emax q :
  (0 <= q)%Q -> nonneg_or_inf (round prec emax q).
Proof.
  intros Hq. unfold round. destruct q as [n d].
  destruct n as [|n|n]; cbn [Qnum].
  - by vm_compute.
  - by apply round_pos_nonneg.
  - exfalso. unfold Qle in Hq. simpl in Hq. lia.
Qed.

(** ** The shape *)

Lemma cells_between_nonneg lo hi ps :
  (0 < ps)%Q -> (lo <= hi)%Q ->
  IEEE.cells_between lo hi ps = Raise (Exception "OverflowError")
  ∨ exists q,
      div binary64 (sub binary64 (Fin hi) (Fin lo)) (Fin ps) = Fin q
      ∧ (0 <= q)%Q
      ∧ IEEE.cells_between lo hi ps = Ok (Qfloor q).
Proof.
  intros Hps Hle. unfold IEEE.cells_between, IEEE.py_truediv.
  rewrite Qeq_bool_false_pos by done. cbn [rbind].
  unfold sub, opp, add.
  pose proof (round_nonneg 53 1024 (hi + Qred (- lo))) as Hd.
  fold binary64 in Hd.
  destruct (binary64 (hi + Qred (- lo))) as [d|[]|] eqn:Ed;
    cbn [nonneg_or_inf] in Hd.
  - assert (0 <= d)%Q as Hd0 by (apply Hd; rewrite Qred_correct; lra).
    unfold div. rewrite Qeq_bool_false_pos by done.
    pose proof (round_nonneg 53 1024 (d / ps)
                  (Qdiv_nonneg d ps Hd0 Hps)) as Hq.
    fold binary64 in Hq.
    destruct (binary64 (d / ps)) as [q|[]|]; cbn [nonneg_or_inf] in Hq;
      try done.
    + right. exists q. split; [done|]. split; [done|].
      cbn [IEEE.py_int]. f_equal. by apply py_int_floor_nonneg.
    + by left.
  - exfalso. assert (true = false); [|done].
    apply Hd. rewrite Qred_correct. lra.
  - left. cbn [div].
    assert (Qle_bool 0 ps = true) as ->
      by (apply Qle_bool_iff; by apply Qlt_le_weak).
    done.
  - exfalso. apply Hd. rewrite Qred_correct. lra.
Qed.


Lemma has_shape_bin_sample_ieee p b ps w h raster s raster' :
  IEEE.bin_sample p b ps w h raster s = Ok raster' ->
  has_shape (Z.to_nat h) (Z.to_nat w) raster ->
  has_shape (Z.to_nat h) (Z.to_nat w) raster'.
Proof.
  unfold IEEE.bin_sample. intros Hbin Hs.
  destruct (IEEE.sample_col _ _ _) as [col|]; [|done]. cbn [rbind] in Hbin.
  destruct (IEEE.sample_row _ _ _) as [row|]; [|done]. cbn [rbind] in Hbin.
  injection Hbin as <-. case_bool_decide; [|done].
  by apply has_shape_set_cell.
Qed.

Lemma has_shape_bin_samples_ieee p b ps w h gdf raster raster' :
  IEEE.bin_samples p b ps w h raster gdf = Ok raster' ->
  has_shape (Z.to_nat h) (Z.to_nat w) raster ->
  has_shape (Z.to_nat h) (Z.to_nat w) raster'.
Proof.
  revert raster. induction gdf as [|s gdf IH]; intros raster Hbin Hs.
  - by injection Hbin as <-.
  - cbn [IEEE.bin_samples] in Hbin.
    destruct (IEEE.bin_sample p b ps w h raster s) as [r1|] eqn:E; [|done].
    cbn [rbind] in Hbin. apply (IH r1); [done|].
    by apply (has_shape_bin_sample_ieee p b ps w h raster s).
Qed.

Lemma bin_samples_indexed p b ps w h gdf raster :
  Forall (IEEE.indexed b ps) gdf ->
  exists raster', IEEE.bin_samples p b ps w h raster gdf = Ok raster'.
Proof.
  intros Hidx. revert raster.
  induction Hidx as [|s gdf [[c Hc] [r Hr]] _ IH]; intros raster.
  - by eexists.
  - cbn [IEEE.bin_samples]. unfold IEEE.bin_sample.
    rewrite Hc, Hr. cbn [rbind]. apply IH.
Qed.

Lemma rasterize_shape_ieee p b ps gdf h w :
  IEEE.raster_shape b ps = Ok (h, w) -> 0 ≤ h -> 0 ≤ w ->
  Forall (IEEE.indexed b ps) gdf ->
  exists g, IEEE.rasterize p b ps gdf = Ok g
    ∧ has_shape (Z.to_nat h) (Z.to_nat w) g.
Proof.
  intros Hshape Hh Hw Hidx. unfold IEEE.rasterize. rewrite Hshape.
  cbn [rbind]. unfold np_full. rewrite bool_decide_eq_false_2 by lia.
  cbn [rbind].
  destruct (bin_samples_indexed p b ps w h gdf
              (replicate (Z.to_nat h) (replicate (Z.to_nat w) NaN)) Hidx)
    as [raster' Hbin].
  rewrite Hbin. cbn [rbind]. eexists. split; [done|].
  apply has_shape_fmap.
  apply (has_shape_bin_samples_ieee p b ps w h gdf _ _ Hbin).
  apply has_shape_replicate.
Qed.



(** X1.  On a proper extent no dimension is negative: with
    [left <= right], [bottom <= top] and a positive cell size, each
    dimension is the floor of a double quotient that is not negative, so
    [np.full] is never given a negative dimension.  The one failure is
    the [OverflowError] of [int] on a quotient that overflowed. *)
Theorem proper_extent_dimensions_nonneg b ps :
  (0 < ps)%Q -> (left b <= right b)%Q -> (bottom b <= top b)%Q ->
  IEEE.raster_shape b ps = Raise (Exception "OverflowError")
  ∨ exists h w, IEEE.raster_shape b ps = Ok (h, w) ∧ 0 ≤ h ∧ 0 ≤ w.
Proof.
  intros Hps Hx Hy. unfold IEEE.raster_shape.
  destruct (cells_between_nonneg (left b) (right b) ps Hps Hx)
    as [->|(qw & _ & Hqw & ->)]; [by left|].
  destruct (cells_between_nonneg (bottom b) (top b) ps Hps Hy)
    as [->|(qh & _ & Hqh & ->)]; [by left|].
  right. cbn [rbind]. exists (Qfloor qh), (Qfloor qw).
  apply Qfloor_resp_le in Hqw, Hqh.
  change (Qfloor 0) with 0 in Hqw, Hqh. done.
Qed.

Lemma proper_extent_dimensions_nonneg_witness :
  IEEE.raster_shape unit_bounds tenth = Raise (Exception "OverflowError")
  ∨ exists h w,
      IEEE.raster_shape unit_bounds tenth = Ok (h, w) ∧ 0 ≤ h ∧ 0 ≤ w.
Proof.
  apply (proper_extent_dimensions_nonneg unit_bounds tenth);
    [reflexivity | unfold Qle; simpl; lia | unfold Qle; simpl; lia].
Defined.

(** ** Binning *)

Section BinningIEEE.
Variables (p : IEEE.promotion) (b : BoundingBox) (ps : Q).
Variables (height width : Z).

Lemma cell_bin_sample_ieee raster s raster' r c cur :
  IEEE.bin_sample p b ps width height raster s = Ok raster' ->
  has_shape (Z.to_nat height) (Z.to_nat width) raster ->
  0 ≤ r < height -> 0 ≤ c < width ->
  cell raster (Z.to_nat r) (Z.to_nat c) = Some cur ->
  cell raster' (Z.to_nat r) (Z.to_nat c)
  = Some (if bool_decide (IEEE.sample_row b ps (geometry_y s) = Ok r
                          ∧ IEEE.sample_col b ps (geometry_x s) = Ok c)
          then IEEE.absorb p cur (value s) else cur).
Proof.
  unfold IEEE.bin_sample. intros Hbin Hs Hr Hc Hcur.
  destruct (IEEE.sample_col b ps (geometry_x s)) as [col|e] eqn:Ecol.
  2: { rewrite bool_decide_eq_false_2; [done|]. by intros [_ ?]. }
  cbn [rbind] in Hbin.
  destruct (IEEE.sample_row b ps (geometry_y s)) as [row|e] eqn:Erow;
    [|done].
  cbn [rbind] in Hbin. injection Hbin as <-.
  case_bool_decide as Hin.
  - case_bool_decide as Hhit.
    + destruct Hhit as [[= ->] [= ->]]. rewrite Hcur. cbn [default].
      apply (cell_set_cell_eq _ _ _ _ _ _ Hs); lia.
    + rewrite cell_set_cell_ne; [done|].
      intros [= E1 E2]. apply Hhit. split; f_equal; lia.
  - rewrite bool_decide_eq_false_2; [done|].
    intros [[= <-] [= <-]]. lia.
Qed.

Lemma cell_bin_samples_ieee gdf raster raster' r c cur :
  IEEE.bin_samples p b ps width height raster gdf = Ok raster' ->
  has_shape (Z.to_nat height) (Z.to_nat width) raster ->
  0 ≤ r < height -> 0 ≤ c < width ->
  cell raster (Z.to_nat r) (Z.to_nat c) = Some cur ->
  cell raster' (Z.to_nat r) (Z.to_nat c)
  = Some (foldl (IEEE.absorb p) cur (value <$> IEEE.hits b ps r c gdf)).
Proof.
  intros Hbin Hs Hr Hc. revert raster cur Hbin Hs.
  induction gdf as [|s gdf IH]; intros raster cur Hbin Hs Hcur.
  - injection Hbin as <-. done.
  - cbn [IEEE.bin_samples] in Hbin.
    destruct (IEEE.bin_sample p b ps width height raster s) as [r1|] eqn:E;
      [|done].
    cbn [rbind] in Hbin.
    pose proof (cell_bin_sample_ieee raster s r1 r c cur E Hs Hr Hc Hcur)
      as Hstep.
    rewrite (IH r1 _ Hbin
               (has_shape_bin_sample_ieee p b ps width height raster s r1 E Hs)
               Hstep).
    unfold IEEE.hits. rewrite filter_cons.
    case_bool_decide; case_decide; done.
Qed.

Lemma cell_rasterize_ieee gdf r c :
  IEEE.raster_shape b ps = Ok (height, width) ->
  0 ≤ r < height -> 0 ≤ c < width ->
  Forall (IEEE.indexed b ps) gdf ->
  exists g, IEEE.rasterize p b ps gdf = Ok g
    ∧ has_shape (Z.to_nat height) (Z.to_nat width) g
    ∧ cell g (Z.to_nat r) (Z.to_nat c)
      = Some (let a := foldl (IEEE.absorb p) NaN
                         (value <$> IEEE.hits b ps r c gdf) in
              if isnan a then Fin nodata else a).
Proof.
  intros Hshape Hr Hc Hidx. unfold IEEE.rasterize. rewrite Hshape.
  cbn [rbind]. unfold np_full. rewrite bool_decide_eq_false_2 by lia.
  cbn [rbind].
  destruct (bin_samples_indexed p b ps width height gdf
              (replicate (Z.to_nat height) (replicate (Z.to_nat width) NaN))
              Hidx) as [raster' Hbin].
  rewrite Hbin. cbn [rbind]. eexists. split; [done|].
  pose proof (has_shape_bin_samples_ieee p b ps width height gdf _ _ Hbin
                (has_shape_replicate _ _ NaN)) as Hs.
  split; [by apply has_shape_fmap|].
  unfold fill_nodata. rewrite cell_fmap.
  rewrite (cell_bin_samples_ieee gdf _ raster' r c NaN Hbin
             (has_shape_replicate _ _ NaN) Hr Hc); [done|].
  apply cell_replicate; lia.
Qed.
End BinningIEEE.

(** A cell that the loop sends no sample to holds the no-data value. *)
Lemma unhit_cell_is_nodata p b ps gdf h w r c :
  IEEE.raster_shape b ps = Ok (h, w) -> 0 ≤ r < h -> 0 ≤ c < w ->
  Forall (IEEE.indexed b ps) gdf ->
  IEEE.hits b ps r c gdf = [] ->
  exists g, IEEE.rasterize p b ps gdf = Ok g
    ∧ cell g (Z.to_nat r) (Z.to_nat c) = Some (Fin nodata).
Proof.
  intros Hshape Hr Hc Hidx Hhits.
  destruct (cell_rasterize_ieee p b ps h w gdf r c Hshape Hr Hc Hidx)
    as (g & Hg & _ & Hcell).
  exists g. split; [done|]. by rewrite Hcell, Hhits.
Qed.




(** The three samples of the amended C5 at work: the cell away from both
    axes holds 27.5 after the three, 15 after the first two, and every
    other cell of the row and of the column is empty. *)
Example collision_scenario :
  (exists g, IEEE.rasterize IEEE.Legacy scenario_bounds 10 collision_gdf
             = Ok g
      ∧ cell g 5 3 = Some (Fin (55 # 2))
      ∧ cell g 0 3 = Some (Fin nodata) ∧ cell g 5 0 = Some (Fin nodata)
      ∧ cell g 3 5 = Some (Fin nodata))
  ∧ (exists g, IEEE.rasterize IEEE.Legacy scenario_bounds 10
                 (take 2 collision_gdf) = Ok g
       ∧ cell g 5 3 = Some (Fin 15)).
Proof.
  split; eexists; (split; [by vm_compute|]); repeat split; reflexivity.
Qed.

(** C6, at the failing input.  The only sample lies left of the extent,
    so no in-bounds sample maps to any cell, yet cell (0, 0) holds its
    value 10 and not the no-data value: the point is half a cell left of
    the extent and [int(-0.5)] is column 0. *)
Theorem cell_filled_without_in_bounds_sample p :
  Forall (fun s => ¬ in_extent scenario_bounds s) [sample_left_of_extent]
  ∧ IEEE.sample_col scenario_bounds 10 (geometry_x sample_left_of_extent)
    = Ok 0
  ∧ exists g, IEEE.rasterize p scenario_bounds 10 [sample_left_of_extent]
              = Ok g
      ∧ cell g 0 0 = Some (Fin 10)
      ∧ Fin 10 ≠ Fin nodata.
Proof.
  split.
  { repeat constructor. intros (Hx & _). by vm_compute in Hx. }
  split; [by vm_compute|].
  eexists. split; [by destruct p; vm_compute|]. split; [reflexivity|done].
Qed.

(** ** Smoothing *)

(** C7, at the failing input.  Two points in the lower left corner of a
    grid of 3 rows and 5 columns leave the interior cell (1, 3) with a
    window of nine no-data cells, so k = 0.  The filter keeps a running
    sum along each line, adding the entering and subtracting the leaving
    element; along the bottom row of the mask the sums 2/3, 1/3, 0 are
    rounded, and what is left where the exact sum is 0 is 2^-53 / 3
    after the division.  The weight at (1, 3) is therefore positive, the
    test [weight_mask > 0] passes, and the cell is written as 0 / weight
    = 0 and not as the no-data value. *)
Theorem empty_window_not_nodata p :
  exists raster out,
    IEEE.rasterize p corner_bounds 10 corner_gdf = Ok raster
    ∧ has_shape 3 5 raster
    ∧ neighbourhood raster 1 3 = replicate 9 (Some (Fin nodata))
    ∧ cell (IEEE.weight_mask raster 3) 1 3
      = Some (Fin (6004799503160661 # 162259276829213363391578010288128))
    ∧ cell (IEEE.smoothed_raster raster 3) 1 3 = Some (Fin 0)
    ∧ IEEE.smoothed_output p corner_bounds 10 corner_gdf 3 = Ok out
    ∧ cell out 1 3 = Some (Fin 0)
    ∧ Fin 0 ≠ Fin nodata.
Proof.
  eexists _, _. split; [by destruct p; vm_compute|].
  split; [split; [reflexivity|repeat constructor]|].
  split; [by vm_compute|].
  split; [by vm_compute|]. split; [by vm_compute|].
  split; [by destruct p; vm_compute|]. split; [by vm_compute|done].
Qed.

Lemma length_running size ext tmp l steps :
  length (IEEE.running size ext tmp l steps) = steps.
Proof.
  revert tmp l. induction steps as [|steps IH]; intros tmp l; [done|].
  cbn [IEEE.running length]. by rewrite IH.
Qed.

Lemma length_uniform_filter1d size line :
  length (IEEE.uniform_filter1d size line) = length line.
Proof.
  destruct line as [|a line]; [done|]. unfold IEEE.uniform_filter1d.
  cbn [length]. rewrite length_running. lia.
Qed.

Lemma has_shape_uniform_filter_axis0_ieee fmt h w size g :
  has_shape h w g -> has_shape h w (IEEE.uniform_filter_axis0 fmt size g).
Proof.
  intros Hs. unfold IEEE.uniform_filter_axis0.
  rewrite (has_shape_nrows _ _ _ Hs). destruct h as [|h].
  - by split.
  - rewrite (has_shape_ncols _ _ _ Hs) by lia. apply has_shape_tabulate.
Qed.

Lemma has_shape_uniform_filter_axis1_ieee fmt h w size g :
  has_shape h w g -> has_shape h w (IEEE.uniform_filter_axis1 fmt size g).
Proof.
  intros [Hh Hw]. unfold IEEE.uniform_filter_axis1. split.
  - by rewrite length_fmap.
  - apply Forall_fmap. eapply Forall_impl; [exact Hw|].
    intros row Hrow. cbn. by rewrite length_fmap, length_uniform_filter1d.
Qed.

Lemma has_shape_uniform_filter_ieee fmt h w size g :
  has_shape h w g -> has_shape h w (IEEE.uniform_filter fmt g size).
Proof.
  intros Hs. unfold IEEE.uniform_filter. destruct (size <=? 1); [done|].
  by apply has_shape_uniform_filter_axis1_ieee,
    has_shape_uniform_filter_axis0_ieee.
Qed.

Lemma has_shape_raster_smoothed_ieee h w raster size :
  has_shape h w raster -> has_shape h w (IEEE.raster_smoothed raster size).
Proof.
  intros Hs. unfold IEEE.raster_smoothed, IEEE.weight_mask,
    IEEE.smoothed_raster.
  apply has_shape_map2_grid; apply has_shape_uniform_filter_ieee.
  - by apply has_shape_astype_float, has_shape_valid_mask.
  - by apply has_shape_zeroed.
Qed.

(** X9.  When both dimensions can be computed and every sample can be
    indexed, the function returns, for every smoothing window size and
    under binary32 and binary64 rounding as NumPy and SciPy apply it, an
    array of exactly [height] rows and [width] columns. *)
Theorem smoothed_output_has_raster_shape p b ps gdf size h w :
  IEEE.raster_shape b ps = Ok (h, w) -> 0 ≤ h -> 0 ≤ w ->
  Forall (IEEE.indexed b ps) gdf ->
  exists out, IEEE.smoothed_output p b ps gdf size = Ok out
    ∧ has_shape (Z.to_nat h) (Z.to_nat w) out.
Proof.
  intros Hshape Hh Hw Hidx.
  destruct (rasterize_shape_ieee p b ps gdf h w Hshape Hh Hw Hidx)
    as (raster & Hraster & Hs).
  unfold IEEE.smoothed_output. rewrite Hraster. cbn [rbind].
  eexists. split; [done|]. by apply has_shape_raster_smoothed_ieee.
Qed.

Lemma smoothed_output_has_raster_shape_witness :
  exists out,
    IEEE.smoothed_output IEEE.Legacy corner_bounds 10 corner_gdf 3 = Ok out
    ∧ has_shape 3 5 out.
Proof.
  apply (smoothed_output_has_raster_shape IEEE.Legacy corner_bounds 10
           corner_gdf 3 3 5); [reflexivity|lia|lia|].
  repeat (constructor; [split; eexists; vm_compute; reflexivity|]).
  constructor.
Defined.

(** ** Rounding is monotone *)

(** [pow2] is the power of the rationals. *)
Lemma pow2_Qpower e : (pow2 e == 2 ^ e)%Q.
Proof.
  destruct e as [|p|p]; cbn [pow2].
  - reflexivity.
  - by rewrite Zpower_Qpower.
  - change (Z.neg p) with (- Z.pos p). rewrite Qpower_opp.
    rewrite <- (Zpower_Qpower 2 (Z.pos p)) by done.
    rewrite <- Pos2Z.inj_pow. reflexivity.
Qed.

Lemma pow2_add a b : (pow2 (a + b) == pow2 a * pow2 b)%Q.
Proof. rewrite !pow2_Qpower. by apply Qpower_plus. Qed.

Lemma pow2_le a b : a ≤ b -> (pow2 a <= pow2 b)%Q.
Proof.
  intros H. rewrite !pow2_Qpower. apply Qpower_le_compat_l; [done|].
  unfold Qle; simpl; lia.
Qed.

Lemma pow2_lt_inv a b : (pow2 a < pow2 b)%Q -> a < b.
Proof.
  rewrite !pow2_Qpower. intros H.
  by apply (Qpower_lt_compat_l_inv 2).
Qed.

Lemma pow2_nonneg_Z n : 0 ≤ n -> (pow2 n == inject_Z (2 ^ n))%Q.
Proof. intros Hn. destruct n; [reflexivity|reflexivity|lia]. Qed.

(** [ilog2 q] is the exponent of the binade of [q]. *)
Lemma ilog2_spec q :
  (0 < q)%Q -> (pow2 (ilog2 q) <= q)%Q ∧ (q < pow2 (ilog2 q + 1))%Q.
Proof.
  intros Hq. destruct q as [n d].
  assert (0 < n) as Hn by (unfold Qlt in Hq; simpl in Hq; lia).
  unfold ilog2. cbn [Qnum Qden].
  set (a := Z.log2 n). set (b := Z.log2 (Z.pos d)).
  pose proof (Z.log2_spec n Hn) as [Ha1 Ha2]. fold a in Ha1, Ha2.
  pose proof (Z.log2_spec (Z.pos d) ltac:(lia)) as [Hb1 Hb2].
  fold b in Hb1, Hb2.
  pose proof (Z.log2_nonneg n) as Ha0. fold a in Ha0.
  pose proof (Z.log2_nonneg (Z.pos d)) as Hb0. fold b in Hb0.
  assert (0 < 2 ^ b) as Hpb by (apply Z.pow_pos_nonneg; lia).
  assert (n # d < pow2 (a - b + 1))%Q as Hupper.
  { apply (Qmult_lt_r _ _ (pow2 b)); [apply pow2_pos|].
    rewrite <- pow2_add. replace (a - b + 1 + b) with (Z.succ a) by lia.
    rewrite !pow2_nonneg_Z by lia.
    unfold Qlt, Qmult, inject_Z. cbn [Qnum Qden].
    rewrite Pos.mul_1_r, Z.mul_1_r. nia. }
  assert (pow2 (a - b - 1) <= n # d)%Q as Hlower.
  { apply (Qmult_le_r _ _ (pow2 (Z.succ b))); [apply pow2_pos|].
    rewrite <- pow2_add. replace (a - b - 1 + Z.succ b) with a by lia.
    rewrite !pow2_nonneg_Z by lia.
    unfold Qle, Qmult, inject_Z. cbn [Qnum Qden].
    rewrite Pos.mul_1_r. nia. }
  destruct (Qle_bool (pow2 (a - b)) (n # d)) eqn:E.
  - apply Qle_bool_iff in E. done.
  - split; [done|]. replace (a - b - 1 + 1) with (a - b) by lia.
    apply Qnot_le_lt. intros H. apply Qle_bool_iff in H. congruence.
Qed.

Lemma ilog2_mono q1 q2 :
  (0 < q1)%Q -> (q1 <= q2)%Q -> ilog2 q1 ≤ ilog2 q2.
Proof.
  intros H1 H12.
  destruct (ilog2_spec q1 H1) as [Hlo _].
  destruct (ilog2_spec q2) as [_ Hhi]; [lra|].
  assert (pow2 (ilog2 q1) < pow2 (ilog2 q2 + 1))%Q as H by lra.
  apply pow2_lt_inv in H. lia.
Qed.
(** Rounding to the nearest integer is monotone and keeps integers. *)
Lemma round_half_even_mono s1 s2 :
  (s1 <= s2)%Q -> round_half_even s1 ≤ round_half_even s2.
Proof.
  intros H. pose proof (Qfloor_resp_le _ _ H) as Hm.
  destruct (decide (Qfloor s1 = Qfloor s2)) as [E|E].
  - unfold round_half_even. rewrite <- E.
    destruct (Qcompare_spec (s1 - inject_Z (Qfloor s1)) (1 # 2));
      destruct (Qcompare_spec (s2 - inject_Z (Qfloor s1)) (1 # 2));
      try (destruct (Z.even (Qfloor s1))); try lia; exfalso; lra.
  - pose proof (round_half_even_bounds s1).
    pose proof (round_half_even_bounds s2). lia.
Qed.

Lemma round_half_even_inject_Z n : round_half_even (inject_Z n) = n.
Proof.
  unfold round_half_even. rewrite Qfloor_Z.
  destruct (Qcompare_spec (inject_Z n - inject_Z n) (1 # 2));
    [exfalso; lra|done|exfalso; lra].
Qed.

Lemma round_half_even_le_Z s n :
  (s <= inject_Z n)%Q -> round_half_even s ≤ n.
Proof.
  intros H. rewrite <- (round_half_even_inject_Z n).
  by apply round_half_even_mono.
Qed.

Lemma round_half_even_ge_Z s n :
  (inject_Z n <= s)%Q -> n ≤ round_half_even s.
Proof.
  intros H. rewrite <- (round_half_even_inject_Z n) at 1.
  by apply round_half_even_mono.
Qed.

(** Within a binade the rounded value grows with the integer it is
    rounded to; across binades a power of two lies in between. *)
Lemma rounded_mono prec emax q1 q2 :
  0 < prec -> (0 < q1)%Q -> (q1 <= q2)%Q ->
  (rounded prec emax q1 <= rounded prec emax q2)%Q.
Proof.
  intros Hprec H1 H12. assert (0 < q2)%Q as H2 by lra.
  unfold rounded.
  pose proof (ilog2_mono q1 q2 H1 H12) as He.
  set (e1 := ilog2 q1) in *. set (e2 := ilog2 q2) in *.
  set (emin := 3 - emax - prec).
  set (fe1 := Z.max (e1 - prec + 1) emin).
  set (fe2 := Z.max (e2 - prec + 1) emin).
  destruct (decide (fe1 = fe2)) as [E|E].
  - rewrite <- E. apply Qmult_le_compat_r; [|apply Qlt_le_weak, pow2_pos].
    rewrite <- Zle_Qle. apply round_half_even_mono.
    apply Qmult_le_compat_r; [done|].
    apply Qlt_le_weak, Qinv_lt_0_compat, pow2_pos.
  - assert (fe1 < fe2 ∧ fe2 = e2 - prec + 1 ∧ e1 + 1 ≤ fe1 + prec)
      as (Hlt & Hfe2 & Hfe1) by lia.
    destruct (ilog2_spec q1 H1) as [_ Hhi1]. fold e1 in Hhi1.
    destruct (ilog2_spec q2 H2) as [Hlo2 _]. fold e2 in Hlo2.
    apply Qle_trans with (pow2 e2).
    + (* the left value is at most [2 ^ (fe1 + prec)] *)
      apply Qle_trans with (pow2 (prec + fe1)); [|apply pow2_le; lia].
      rewrite pow2_add. apply Qmult_le_compat_r;
        [|apply Qlt_le_weak, pow2_pos].
      rewrite (pow2_nonneg_Z prec) by lia. rewrite <- Zle_Qle.
      apply round_half_even_le_Z. rewrite <- pow2_nonneg_Z by lia.
      apply Qle_shift_div_r; [apply pow2_pos|].
      rewrite <- pow2_add. apply Qlt_le_weak.
      apply Qlt_le_trans with (pow2 (e1 + 1)); [done|apply pow2_le; lia].
    + (* the right value is at least [2 ^ e2] *)
      replace e2 with ((prec - 1) + fe2) at 1 by lia.
      rewrite pow2_add. apply Qmult_le_compat_r;
        [|apply Qlt_le_weak, pow2_pos].
      rewrite (pow2_nonneg_Z (prec - 1)) by lia. rewrite <- Zle_Qle.
      apply round_half_even_ge_Z. rewrite <- pow2_nonneg_Z by lia.
      apply Qle_shift_div_l; [apply pow2_pos|].
      rewrite <- pow2_add. replace (prec - 1 + fe2) with e2 by lia. done.
Qed.

(** Rounding to a format is monotone, overflow to infinity included. *)
Lemma round_pos_mono prec emax q1 q2 :
  0 < prec -> (0 < q1)%Q -> (q1 <= q2)%Q ->
  fle (round_pos prec emax q1) (round_pos prec emax q2).
Proof.
  intros Hprec H1 H12.
  pose proof (rounded_mono prec emax q1 q2 Hprec H1 H12) as Hv.
  unfold round_pos.
  destruct (Qle_bool (pow2 emax) (rounded prec emax q1)) eqn:E1;
    destruct (Qle_bool (pow2 emax) (rounded prec emax q2)) eqn:E2;
    cbn [fle]; try done.
  - apply Qle_bool_iff in E1.
    assert (Qle_bool (pow2 emax) (rounded prec emax q2) = true)
      by (apply Qle_bool_iff; lra).
    congruence.
  - by rewrite !Qred_correct.
Qed.

Lemma round_mono prec emax q1 q2 :
  0 < prec -> (q1 <= q2)%Q -> fle (round prec emax q1) (round prec emax q2).
Proof.
  intros Hprec H12. unfold round.
  destruct q1 as [[|n1|n1] d1], q2 as [[|n2|n2] d2]; cbn [Qnum];
    try (exfalso; unfold Qle in H12; simpl in H12; lia).
  - cbn [fle]. lra.
  - pose proof (round_pos_nonneg prec emax (Z.pos n2 # d2) eq_refl) as Hp.
    destruct (round_pos _ _ _) as [v|[]|]; cbn [nonneg_or_inf fle] in *; done.
  - by apply round_pos_mono.
  - pose proof (round_pos_nonneg prec emax (- (Z.neg n1 # d1)) eq_refl) as Hp.
    destruct (round_pos _ _ _) as [v|[]|]; cbn [nonneg_or_inf fle] in *;
      try done.
    rewrite Qred_correct. lra.
  - pose proof (round_pos_nonneg prec emax (- (Z.neg n1 # d1)) eq_refl) as Hp1.
    pose proof (round_pos_nonneg prec emax (Z.pos n2 # d2) eq_refl) as Hp2.
    destruct (round_pos prec emax (- (Z.neg n1 # d1))) as [v1|[]|];
      destruct (round_pos prec emax (Z.pos n2 # d2)) as [v2|[]|];
      cbn [nonneg_or_inf fle] in *; try done.
    rewrite Qred_correct. lra.
  - assert (- (Z.neg n2 # d2) <= - (Z.neg n1 # d1))%Q as H21 by lra.
    pose proof (round_pos_mono prec emax (- (Z.neg n2 # d2)) _ Hprec
                  eq_refl H21) as Hm.
    pose proof (round_pos_nonneg prec emax (- (Z.neg n1 # d1)) eq_refl) as Hp1.
    pose proof (round_pos_nonneg prec emax (- (Z.neg n2 # d2)) eq_refl) as Hp2.
    destruct (round_pos prec emax (- (Z.neg n1 # d1))) as [v1|[]|];
      destruct (round_pos prec emax (- (Z.neg n2 # d2))) as [v2|[]|];
      cbn [nonneg_or_inf fle] in *; try done.
    rewrite !Qred_correct. lra.
Qed.

(** ** Samples on or beyond the right and bottom edges *)

Lemma round_pos_not_NaN prec emax q : round_pos prec emax q ≠ NaN.
Proof. unfold round_pos. by destruct (Qle_bool _ _). Qed.

Lemma round_not_NaN prec emax q : round prec emax q ≠ NaN.
Proof.
  unfold round. destruct (Qnum q); [done|apply round_pos_not_NaN|].
  pose proof (round_pos_not_NaN prec emax (- q)).
  by destruct (round_pos prec emax (- q)).
Qed.

Lemma fle_Inf_true b : b ≠ NaN -> fle (Inf true) b.
Proof. by destruct b. Qed.

Lemma fle_Inf_false a : a ≠ NaN -> fle a (Inf false).
Proof. by destruct a as [x|[]|]. Qed.

Lemma fle_not_NaN a b : fle a b -> a ≠ NaN ∧ b ≠ NaN.
Proof. by destruct a as [x|[]|], b as [y|[]|]. Qed.

(** Truncation toward zero is monotone. *)
Lemma py_int_mono a b z1 z2 :
  fle a b -> IEEE.py_int a = Ok z1 -> IEEE.py_int b = Ok z2 -> z1 ≤ z2.
Proof.
  destruct a as [[n1 d1]| |], b as [[n2 d2]| |]; try done.
  cbn [fle IEEE.py_int Qnum Qden]. intros Hle [= <-] [= <-].
  unfold Qle in Hle. cbn [Qnum Qden] in Hle.
  rewrite <- (Z.quot_mul_cancel_r n1 (Z.pos d1) (Z.pos d2)) by lia.
  rewrite <- (Z.quot_mul_cancel_r n2 (Z.pos d2) (Z.pos d1)) by lia.
  rewrite (Z.mul_comm (Z.pos d2) (Z.pos d1)).
  apply Z.quot_le_mono; lia.
Qed.

(** Dividing by a positive number is monotone. *)
Lemma div_pos_mono a b ps :
  (0 < ps)%Q -> fle a b ->
  fle (div binary64 a (Fin ps)) (div binary64 b (Fin ps)).
Proof.
  intros Hps Hab.
  assert (Qle_bool 0 ps = true) as Hle
    by (apply Qle_bool_iff; by apply Qlt_le_weak).
  pose proof (Qeq_bool_false_pos ps Hps) as Hne.
  destruct a as [x|[]|], b as [y|[]|]; cbn [fle] in Hab; try done;
    cbn [div]; rewrite ?Hne, ?Hle; cbn [xorb negb fle]; try done.
  - apply round_mono; [done|].
    apply Qmult_le_compat_r; [done|].
    by apply Qlt_le_weak, Qinv_lt_0_compat.
  - apply fle_Inf_false, round_not_NaN.
  - apply fle_Inf_true, round_not_NaN.
Qed.

(** The number of cells between two coordinates grows with the upper one
    and as the lower one decreases. *)
Lemma cells_between_mono lo1 hi1 lo2 hi2 ps z1 z2 :
  (0 < ps)%Q -> (hi1 - lo1 <= hi2 - lo2)%Q ->
  IEEE.cells_between lo1 hi1 ps = Ok z1 ->
  IEEE.cells_between lo2 hi2 ps = Ok z2 ->
  z1 ≤ z2.
Proof.
  intros Hps Hd. unfold IEEE.cells_between, IEEE.py_truediv.
  rewrite (Qeq_bool_false_pos ps Hps). cbn [rbind]. intros H1 H2.
  refine (py_int_mono _ _ _ _ _ H1 H2). apply div_pos_mono; [done|].
  unfold sub, opp, add. apply round_mono; [done|].
  rewrite !Qred_correct. lra.
Qed.

Lemma cells_between_cases lo hi ps :
  (0 < ps)%Q ->
  (exists z, IEEE.cells_between lo hi ps = Ok z)
  ∨ IEEE.cells_between lo hi ps = Raise (Exception "OverflowError").
Proof.
  intros Hps. unfold IEEE.cells_between, IEEE.py_truediv.
  rewrite (Qeq_bool_false_pos ps Hps). cbn [rbind].
  unfold sub, opp, add.
  pose proof (round_not_NaN 53 1024 (hi + Qred (- lo))) as Hd.
  fold binary64 in Hd.
  destruct (binary64 (hi + Qred (- lo))) as [d|s|]; [| |done]; cbn [div].
  - rewrite (Qeq_bool_false_pos ps Hps).
    pose proof (round_not_NaN 53 1024 (d / ps)) as Hq. fold binary64 in Hq.
    destruct (binary64 (d / ps)) as [q|t|]; [| |done]; cbn [IEEE.py_int];
      eauto.
  - cbn [IEEE.py_int]. by right.
Qed.

(** The loop over a concatenation. *)
Lemma bin_samples_app p b ps w h gdf1 gdf2 raster :
  IEEE.bin_samples p b ps w h raster (gdf1 ++ gdf2)
  = let? raster' := IEEE.bin_samples p b ps w h raster gdf1 in
    IEEE.bin_samples p b ps w h raster' gdf2.
Proof.
  revert raster. induction gdf1 as [|s gdf1 IH]; intros raster; [done|].
  cbn [app IEEE.bin_samples].
  destruct (IEEE.bin_sample p b ps w h raster s); cbn [rbind]; [apply IH|done].
Qed.

Lemma raster_shape_Ok b ps h w :
  IEEE.raster_shape b ps = Ok (h, w) ->
  IEEE.cells_between (left b) (right b) ps = Ok w
  ∧ IEEE.cells_between (bottom b) (top b) ps = Ok h.
Proof.
  unfold IEEE.raster_shape.
  destruct (IEEE.cells_between (left b) (right b) ps); [|done].
  destruct (IEEE.cells_between (bottom b) (top b) ps); [|done].
  cbn [rbind]. by intros [= -> ->].
Qed.

Lemma bin_sample_beyond_edge p b ps h w raster s :
  (0 < ps)%Q -> IEEE.raster_shape b ps = Ok (h, w) ->
  (right b <= geometry_x s ∨ geometry_y s <= bottom b)%Q ->
  IEEE.bin_sample p b ps w h raster s = Ok raster
  ∨ IEEE.bin_sample p b ps w h raster s = Raise (Exception "OverflowError").
Proof.
  intros Hps Hshape Hout.
  destruct (raster_shape_Ok b ps h w Hshape) as [Hw Hh].
  unfold IEEE.bin_sample, IEEE.sample_col, IEEE.sample_row.
  destruct (cells_between_cases (left b) (geometry_x s) ps Hps)
    as [[c Hc]| ->]; [|by right].
  destruct (cells_between_cases (geometry_y s) (top b) ps Hps)
    as [[r Hr]|Hr]; rewrite Hc, Hr; cbn [rbind]; [|by right].
  left. rewrite bool_decide_eq_false_2; [done|].
  intros [Hcw Hrh]. destruct Hout as [Hx|Hy].
  - assert (right b - left b <= geometry_x s - left b)%Q as Hd by lra.
    pose proof (cells_between_mono _ _ _ _ ps w c Hps Hd Hw Hc). lia.
  - assert (top b - bottom b <= top b - geometry_y s)%Q as Hd by lra.
    pose proof (cells_between_mono _ _ _ _ ps h r Hps Hd Hh Hr). lia.
Qed.

Lemma bin_sample_indexed p b ps w h raster s :
  IEEE.indexed b ps s ->
  exists raster', IEEE.bin_sample p b ps w h raster s = Ok raster'.
Proof.
  intros [[c Hc] [r Hr]]. unfold IEEE.bin_sample. rewrite Hc, Hr.
  cbn [rbind]. eauto.
Qed.

(** X2.  A sample on or right of the right edge, or on or below the
    bottom edge, has no effect: its column is computed by the expression
    that gives the width, on a coordinate that is not smaller, and
    rounding, division by a positive cell size and truncation are
    monotone, so the column is at least the width (the row at least the
    height) and the bounds test fails. *)
Theorem sample_beyond_right_or_bottom_edge_is_dropped p b ps gdf1 gdf2 s :
  (0 < ps)%Q -> IEEE.indexed b ps s ->
  (right b <= geometry_x s ∨ geometry_y s <= bottom b)%Q ->
  IEEE.rasterize p b ps (gdf1 ++ s :: gdf2)
  = IEEE.rasterize p b ps (gdf1 ++ gdf2).
Proof.
  intros Hps Hidx Hout. unfold IEEE.rasterize.
  destruct (IEEE.raster_shape b ps) as [[h w]|e] eqn:Hshape; [|done].
  cbn [rbind]. destruct (np_full h w NaN) as [raster|e]; [|done].
  cbn [rbind]. rewrite !bin_samples_app.
  destruct (IEEE.bin_samples p b ps w h raster gdf1) as [raster1|e];
    [|done].
  cbn [rbind IEEE.bin_samples].
  destruct (bin_sample_indexed p b ps w h raster1 s Hidx) as [raster' H'].
  destruct (bin_sample_beyond_edge p b ps h w raster1 s Hps Hshape Hout)
    as [H|H]; [|congruence].
  by rewrite H.
Qed.

Lemma sample_beyond_right_or_bottom_edge_is_dropped_witness :
  IEEE.rasterize IEEE.Legacy scenario_bounds 10
    (scenario_gdf ++ edge_sample :: [])
  = IEEE.rasterize IEEE.Legacy scenario_bounds 10 (scenario_gdf ++ []).
Proof.
  apply (sample_beyond_right_or_bottom_edge_is_dropped IEEE.Legacy
           scenario_bounds 10 scenario_gdf [] edge_sample);
    [reflexivity | split; eexists; vm_compute; reflexivity
     | left; unfold Qle; simpl; lia].
Defined.

(** ** The range of a cell *)

(** Rounding does not leave an interval whose ends are numbers of the
    format. *)
Lemma round_within prec emax lo hi x :
  0 < prec ->
  float_eq (round prec emax lo) (Fin lo) ->
  float_eq (round prec emax hi) (Fin hi) ->
  (lo <= x <= hi)%Q ->
  exists v, round prec emax x = Fin v ∧ (lo <= v <= hi)%Q.
Proof.
  intros Hprec Hlo Hhi [H1 H2].
  pose proof (round_mono prec emax lo x Hprec H1) as Hl.
  pose proof (round_mono prec emax x hi Hprec H2) as Hh.
  destruct (round prec emax lo) as [l| |]; [|done..].
  destruct (round prec emax hi) as [h| |]; [|done..].
  cbn [float_eq] in Hlo, Hhi.
  destruct (round prec emax x) as [v|[]|]; cbn [fle] in Hl, Hh; try done.
  exists v. split; [done|]. rewrite <- Hlo, <- Hhi. done.
Qed.

(** One step of the loop keeps a cell within the range. *)
Lemma absorb_within p lo hi cur v :
  range_representable lo hi ->
  nan_or_within lo hi cur -> nan_or_within lo hi v ->
  nan_or_within lo hi (IEEE.absorb p cur v).
Proof.
  intros ([Hl32 Hl64] & [Hh32 Hh64] & [Hll32 Hll64] & [Hhh32 Hhh64]).
  destruct cur as [c| |], v as [x| |]; cbn [nan_or_within]; try done;
    intros Hc Hx; unfold IEEE.absorb; cbn [isnan cast];
    unfold binary32, binary64 in *.
  - (* two finite values *)
    destruct p; cbn [IEEE.pair_mean add cast]; unfold binary32, binary64.
    + destruct (round_within 53 1024 (lo + lo) (hi + hi) (c + x)
                  ltac:(done) Hll64 Hhh64 ltac:(lra)) as (s & -> & Hs).
      cbn [div]. change (Qeq_bool 2 0) with false. cbn match.
      destruct (round_within 53 1024 lo hi (s / 2)
                  ltac:(done) Hl64 Hh64) as (t & -> & Ht).
      { split; [apply Qle_shift_div_l|apply Qle_shift_div_r];
          (reflexivity || lra). }
      cbn [cast].
      destruct (round_within 24 128 lo hi t ltac:(done) Hl32 Hh32 Ht)
        as (u & -> & Hu).
      done.
    + destruct (round_within 24 128 lo hi x ltac:(done) Hl32 Hh32 Hx)
        as (x' & -> & Hx').
      destruct (round_within 24 128 (lo + lo) (hi + hi) (c + x')
                  ltac:(done) Hll32 Hhh32 ltac:(lra)) as (s & -> & Hs).
      cbn [div]. change (Qeq_bool 2 0) with false. cbn match.
      destruct (round_within 24 128 lo hi (s / 2)
                  ltac:(done) Hl32 Hh32) as (t & -> & Ht).
      { split; [apply Qle_shift_div_l|apply Qle_shift_div_r];
          (reflexivity || lra). }
      done.
  - destruct p; done.
  - destruct (round_within 24 128 lo hi x ltac:(done) Hl32 Hh32 Hx)
      as (x' & Ex & Hx').
    by rewrite Ex.
Qed.

Lemma foldl_absorb_within p lo hi cur vs :
  range_representable lo hi ->
  nan_or_within lo hi cur -> Forall (nan_or_within lo hi) vs ->
  nan_or_within lo hi (foldl (IEEE.absorb p) cur vs).
Proof.
  intros Hrep Hcur Hvs. revert cur Hcur.
  induction Hvs as [|v vs Hv _ IH]; intros cur Hcur; [done|].
  cbn [foldl]. by apply IH, absorb_within.
Qed.

Lemma hits_values_within lo hi b ps r c gdf :
  Forall (fun s => nan_or_within lo hi (value s)) gdf ->
  Forall (nan_or_within lo hi) (value <$> IEEE.hits b ps r c gdf).
Proof.
  intros Hgdf. apply Forall_fmap. unfold IEEE.hits.
  apply Forall_forall. intros s Hs. apply list_elem_of_filter in Hs as [_ Hs].
  rewrite Forall_forall in Hgdf. by apply Hgdf.
Qed.

(** X7.  Averaging never leaves the range of the data, rounding
    included: when [lo], [hi] and their doubles are binary32 numbers and
    every value is NaN or within [lo, hi], every cell of the raster
    before smoothing holds the no-data value or a value within
    [lo, hi], under either promotion rule. *)
Theorem averaging_stays_within_data_range p b ps gdf h w r c lo hi :
  IEEE.raster_shape b ps = Ok (h, w) -> 0 ≤ r < h -> 0 ≤ c < w ->
  Forall (IEEE.indexed b ps) gdf ->
  range_representable lo hi ->
  Forall (fun s => nan_or_within lo hi (value s)) gdf ->
  exists g v,
    IEEE.rasterize p b ps gdf = Ok g
    ∧ cell g (Z.to_nat r) (Z.to_nat c) = Some (Fin v)
    ∧ (v = nodata ∨ (lo <= v <= hi)%Q).
Proof.
  intros Hshape Hr Hc Hidx Hrep Hgdf.
  destruct (cell_rasterize_ieee p b ps h w gdf r c Hshape Hr Hc Hidx)
    as (g & Hg & _ & Hcell).
  pose proof (foldl_absorb_within p lo hi NaN _ Hrep I
                (hits_values_within lo hi b ps r c gdf Hgdf)) as Hin.
  cbn zeta in Hcell.
  destruct (foldl (IEEE.absorb p) NaN _) as [v| |]; [|done|];
    cbn [isnan] in Hcell.
  - exists g, v. auto.
  - exists g, nodata. auto.
Qed.

Lemma averaging_stays_within_data_range_witness :
  exists g v,
    IEEE.rasterize IEEE.Weak scenario_bounds 10 scenario_gdf = Ok g
    ∧ cell g 0 0 = Some (Fin v)
    ∧ (v = nodata ∨ (10 <= v <= 100)%Q).
Proof.
  apply (averaging_stays_within_data_range IEEE.Weak scenario_bounds 10
           scenario_gdf 10 10 0 0 10 100); [reflexivity | lia | lia | | |].
  - repeat (constructor; [split; eexists; vm_compute; reflexivity|]).
    constructor.
  - by vm_compute.
  - repeat constructor; unfold Qle; simpl; lia.
Defined.

(** ** The end-to-end scenario *)

(** Before smoothing cell (0, 0) holds 15, cell (9, 9) holds 100 and the
    others the no-data value.  After smoothing with a 3 x 3 window cells
    (0, 0) and (1, 1) hold 15 - 3 / 2^23: the binary32 rounding of 20/3
    divided by the binary64 rounding of 4/9.  Cell (5, 5), with no
    measurement in its window, holds the no-data value. *)
Example scenario_end_to_end p :
  exists raster out,
    IEEE.rasterize p scenario_bounds 10 scenario_gdf = Ok raster
    ∧ IEEE.smoothed_output p scenario_bounds 10 scenario_gdf 3 = Ok out
    ∧ has_shape 10 10 raster
    ∧ cell raster 0 0 = Some (Fin 15)
    ∧ cell raster 9 9 = Some (Fin 100)
    ∧ cell raster 0 1 = Some (Fin nodata)
    ∧ cell out 0 0 = Some (Fin (125829117 # 8388608))
    ∧ cell out 1 1 = Some (Fin (125829117 # 8388608))
    ∧ cell out 5 5 = Some (Fin nodata)
    ∧ (125829117 # 8388608 == 15 - 3 / inject_Z (2 ^ 23))%Q.
Proof.
  eexists _, _.
  split; [by destruct p; vm_compute|]. split; [by destruct p; vm_compute|].
  split; [split; [reflexivity|repeat constructor]|].
  repeat split; by vm_compute.
Qed.
